(** * bot-espelhar: the message mirroring pipeline of [app.py]

    A shallow embedding of the pure core of [app.py] (identifier
    normalisation, mapping resolution, rich-text transcoding, content
    filtering) and of its delivery loop, the latter as state passing over
    an abstract messaging client together with the trace of effects the
    loop performs. *)

From Stdlib Require Import ZArith QArith.QArith_base String Ascii List Lia.
From Stdlib Require Import DecimalString DecimalPos.
From stdpp Require Import base option list sorting gmap.

Local Open Scope Z_scope.

(** ** Python strings

    A Python [str] is a sequence of Unicode code points, and [len], indexing
    and [range(len(text) + 1)] all count code points.  A character is its
    code point. *)

Module PyStr.

Abbreviation char := N (only parsing).
Abbreviation pystr := (list N) (only parsing).

(** A string literal of the source, all of whose characters are ASCII. *)
Definition py (s : string) : pystr :=
  List.map N_of_ascii (list_ascii_of_string s).

(** The double quote, U+0022. *)
Definition dquote : pystr := [34%N].

(** [str(n)] for an [int]: its decimal digits, with a minus sign.  The
    interpreter's limit on the digits of such a conversion is not modelled
    here: the program formats Telegram's 64-bit user ids only. *)
Definition str_of_int (z : Z) : pystr :=
  py (NilZero.string_of_int (Z.to_int z)).

(** [needle in haystack] for two strings. *)
Fixpoint prefix_of (p s : pystr) : bool :=
  match p, s with
  | [], _ => true
  | _ :: _, [] => false
  | a :: p', b :: s' => (a =? b)%N && prefix_of p' s'
  end.

Fixpoint contains (haystack needle : pystr) : bool :=
  prefix_of needle haystack ||
  match haystack with
  | [] => false
  | _ :: rest => contains rest needle
  end.

(** What the program uses of the interpreter's Unicode character
    database: [decimal_value] is the value of a character of
    Numeric_Type=Decimal (what [int] accepts as a digit), [digit_only]
    holds of the characters of Numeric_Type=Digit (accepted by
    [str.isdigit], refused by [int]), [is_whitespace] is what [str.strip]
    removes, and [lower] is [str.lower].  [max_str_digits] is the
    interpreter's limit on the number of digits [int] converts from a
    string ([sys.get_int_max_str_digits()], 4300 unless configured
    otherwise, 0 for no limit). *)
Class Unicode := {
  decimal_value : char -> option Z;
  digit_only : char -> bool;
  is_whitespace : char -> bool;
  lower : pystr -> pystr;
  max_str_digits : nat
}.

Section Methods.
Context `{Unicode}.

(** [c.isdigit()] for one character. *)
Definition isdigit_char (c : char) : bool :=
  match decimal_value c with
  | Some _ => true
  | None => digit_only c
  end.

(** [s.isdigit()]: every character is a digit and there is at least one. *)
Definition isdigit (s : pystr) : bool :=
  match s with
  | [] => false
  | _ => forallb isdigit_char s
  end.

(** [s.strip()] is the empty string: nothing but whitespace. *)
Definition strip_is_empty (s : pystr) : bool := forallb is_whitespace s.

(** [s.startswith("-")] and [s[1:]]. *)
Definition startswith_minus (s : pystr) : bool :=
  match s with
  | c :: _ => (c =? 45)%N
  | [] => false
  end.

Definition tail_from_1 (s : pystr) : pystr := List.tl s.

(** The value of a run of decimal digits read left to right, [None] when
    a character is not a decimal digit. *)
Fixpoint digits_value (acc : Z) (s : pystr) : option Z :=
  match s with
  | [] => Some acc
  | c :: rest =>
      match decimal_value c with
      | Some v => digits_value (10 * acc + v) rest
      | None => None
      end
  end.

(** The limit on the digits of a numeral: every digit counts, leading
    zeros included, the sign does not. *)
Definition within_limit (digits : pystr) : bool :=
  (max_str_digits =? 0)%nat || (length digits <=? max_str_digits)%nat.

(** [int(s)] on the strings the program passes to it: a non-empty run of
    digit characters with an optional leading minus sign.  [None] stands
    for [ValueError], raised for a character that is not a decimal digit
    and for a numeral of more digits than the limit. *)
Definition int_of_str (s : pystr) : option Z :=
  match s with
  | [] => None
  | c :: rest =>
      if (c =? 45)%N then
        match rest with
        | [] => None
        | _ => if within_limit rest then Z.opp <$> digits_value 0 rest else None
        end
      else if within_limit s then digits_value 0 s else None
  end.
End Methods.

(** An excerpt of the character database, enough to run the examples:
    the ASCII digits are decimal digits, the superscripts of Latin-1
    (U+00B2, U+00B3, U+00B9) are digits that are not decimal, ASCII
    whitespace is whitespace, and [lower] maps A-Z to a-z.  The limit on
    the digits of a numeral is the interpreter's default. *)
Definition excerpt_decimal (c : char) : option Z :=
  if ((48 <=? c) && (c <=? 57))%N then Some (Z.of_N c - 48) else None.

Definition excerpt_digit_only (c : char) : bool :=
  ((c =? 178) || (c =? 179) || (c =? 185))%N.

Definition excerpt_whitespace (c : char) : bool :=
  ((c =? 32) || ((9 <=? c) && (c <=? 13)) || ((28 <=? c) && (c <=? 31)))%N.

Definition excerpt_lower_char (c : char) : char :=
  if ((65 <=? c) && (c <=? 90))%N then (c + 32)%N else c.

Definition excerpt : Unicode := {|
  decimal_value := excerpt_decimal;
  digit_only := excerpt_digit_only;
  is_whitespace := excerpt_whitespace;
  lower := List.map excerpt_lower_char;
  max_str_digits := 4300
|}.

End PyStr.
Import PyStr.

(** ** [html.escape]

    The transcoder calls the standard library's [html.escape(s)] with its
    default [quote=True]: [&], [<], [>], the double and the single quote are
    replaced, every other character is kept. *)

Module Html.

Definition escape_char (c : char) : pystr :=
  if (c =? 38)%N then py "&amp;"
  else if (c =? 60)%N then py "&lt;"
  else if (c =? 62)%N then py "&gt;"
  else if (c =? 34)%N then py "&quot;"
  else if (c =? 39)%N then py "&#x27;"
  else [c].

Definition escape (s : pystr) : pystr := flat_map escape_char s.

Definition reserved (c : char) : bool :=
  ((c =? 38) || (c =? 60) || (c =? 62) || (c =? 34) || (c =? 39))%N.

End Html.

(** ** The rich-text transcoder: [entities_to_html] *)

Module Transcoder.

(** [ent.__class__.__name__] with the attributes the transcoder reads of
    each class.  A mention carries [ent.user_id] and [ent.user.id], either
    of which may be missing.  [MessageEntityOther] stands for every class
    name the chain of comparisons does not know. *)
Inductive entity_class :=
| MessageEntityBold
| MessageEntityItalic
| MessageEntityCode
| MessageEntityPre
| MessageEntityTextUrl (url : pystr)
| MessageEntityUrl
| MessageEntityMentionName (user_id : option Z) (user_dot_id : option Z)
| MessageEntityTextMention (user_id : option Z) (user_dot_id : option Z)
| MessageEntityUnderline
| MessageEntityStrike
| MessageEntitySpoiler
| MessageEntityOther.

Record entity := Entity {
  cls : entity_class;
  offset : Z;
  ent_length : Z
}.

(** [a or b] and the truth value of an optional [int]. *)
Definition truthy_int (a : option Z) : bool :=
  match a with
  | Some z => negb (z =? 0)
  | None => false
  end.

Definition py_or (a b : option Z) : option Z :=
  if truthy_int a then a else b.

Definition mention_tags (user_id user_dot_id : option Z) : pystr * pystr :=
  let uid := py_or user_id user_dot_id in
  match uid with
  | Some z =>
      if truthy_int uid
      then (py "<a href=" ++ dquote ++ py "tg://user?id=" ++ str_of_int z
            ++ dquote ++ py ">",
            py "</a>")
      else ([], [])
  | None => ([], [])
  end.

(** The [if]/[elif] chain of lines 215-244: the pair
    [(start_tag, end_tag)], or [None] where the loop [continue]s. *)
Definition tags (c : entity_class) : option (pystr * pystr) :=
  match c with
  | MessageEntityBold => Some (py "<b>", py "</b>")
  | MessageEntityItalic => Some (py "<i>", py "</i>")
  | MessageEntityCode => Some (py "<code>", py "</code>")
  | MessageEntityPre => Some (py "<pre>", py "</pre>")
  | MessageEntityTextUrl url =>
      Some (py "<a href=" ++ dquote ++ Html.escape url ++ dquote ++ py ">",
            py "</a>")
  | MessageEntityUrl => Some (py "<a href=" ++ dquote, py "</a>")
  | MessageEntityMentionName u v => Some (mention_tags u v)
  | MessageEntityTextMention u v => Some (mention_tags u v)
  | MessageEntityUnderline => Some (py "<u>", py "</u>")
  | MessageEntityStrike => Some (py "<s>", py "</s>")
  | MessageEntitySpoiler => Some (py "<tg-spoiler>", py "</tg-spoiler>")
  | MessageEntityOther => None
  end.

(** The first loop: two entries of [inserts] per entity that has tags. *)
Fixpoint build_inserts (entities : list entity) : list (Z * pystr) :=
  match entities with
  | [] => []
  | ent :: rest =>
      let off := offset ent in
      let ln := ent_length ent in
      match tags (cls ent) with
      | Some (start_tag, end_tag) =>
          (off, start_tag) :: (off + ln, end_tag) :: build_inserts rest
      | None => build_inserts rest
      end
  end.

Section Walk.
Context {A : Type}.

(** [inserts_by_pos.setdefault(pos, []).append(tag)] for every entry. *)
Definition setdefault_append (m : gmap Z (list A)) (entry : Z * A)
  : gmap Z (list A) :=
  <[entry.1 := default [] (m !! entry.1) ++ [entry.2]]> m.

Definition inserts_by_pos (inserts : list (Z * A)) : gmap Z (list A) :=
  fold_left setdefault_append inserts ∅.

(** One round of [for i in range(len(text) + 1)]: what is appended to
    [out] at position [i].  [lit i c] is what is appended for the
    character [c = text[i]]. *)
Definition emit_at (lit : nat -> char -> A) (text : pystr)
    (m : gmap Z (list A)) (i : nat) : list A :=
  default [] (m !! Z.of_nat i) ++
  match text !! i with
  | Some c => [lit i c]
  | None => []
  end.

Definition walk (lit : nat -> char -> A) (text : pystr)
    (m : gmap Z (list A)) : list A :=
  flat_map (emit_at lit text m) (seq 0 (S (length text))).

(** The tags of [inserts] scheduled at position [i], in the order of
    [inserts]. *)
Fixpoint scheduled_at (i : Z) (inserts : list (Z * A)) : list A :=
  match inserts with
  | [] => []
  | (pos, tag) :: rest =>
      if pos =? i then tag :: scheduled_at i rest else scheduled_at i rest
  end.
End Walk.

(** The list [out] at the end of the walk. *)
Definition out_pieces (text : pystr) (entities : list entity) : list pystr :=
  walk (fun _ c => Html.escape [c]) text
    (inserts_by_pos (build_inserts entities)).

Definition entities_to_html (text : pystr) (entities : list entity) : pystr :=
  match entities with
  | [] => Html.escape text
  | _ => concat (out_pieces text entities)
  end.

(** The same walk with every piece of [out] carrying where it comes from:
    a tag remembers the position it was scheduled at, the index of its
    entity in the input list and whether it is the closing tag; a literal
    remembers its index in the text and its character. *)
Inductive piece :=
| PTag (pos : Z) (k : nat) (closing : bool) (s : pystr)
| PLit (i : nat) (c : char).

Definition render (p : piece) : pystr :=
  match p with
  | PTag _ _ _ s => s
  | PLit _ c => Html.escape [c]
  end.

Definition lit_char (p : piece) : option char :=
  match p with
  | PLit _ c => Some c
  | PTag _ _ _ _ => None
  end.

Fixpoint labelled_inserts (k : nat) (entities : list entity)
  : list (Z * piece) :=
  match entities with
  | [] => []
  | ent :: rest =>
      let off := offset ent in
      let ln := ent_length ent in
      match tags (cls ent) with
      | Some (start_tag, end_tag) =>
          (off, PTag off k false start_tag)
          :: (off + ln, PTag (off + ln) k true end_tag)
          :: labelled_inserts (S k) rest
      | None => labelled_inserts (S k) rest
      end
  end.

Definition labelled_out (text : pystr) (entities : list entity) : list piece :=
  walk PLit text (inserts_by_pos (labelled_inserts 0 entities)).

(** Where a piece stands in the output: by position first; at one
    position the tags in the order they were scheduled, and the character
    of position [i] before everything of position [i + 1]. *)
Definition rank (p : piece) : Z * nat :=
  match p with
  | PTag pos k closing _ => (pos, S (2 * k + (if closing then 1 else 0)))
  | PLit i _ => (Z.of_nat i + 1, O)
  end.

Definition before (p q : piece) : Prop :=
  (rank p).1 < (rank q).1 \/
  ((rank p).1 = (rank q).1 /\ ((rank p).2 < (rank q).2)%nat).


End Transcoder.

Import Transcoder.

(** ** Exceptions and results

    The exceptions the program tells apart, all of them subclasses of
    [Exception]; [OtherException] stands for every other such subclass. *)

Inductive exn :=
| ValueError
| FloodWaitError (seconds : option Z)
| ChatWriteForbiddenError
| OtherException.

Inductive result (A : Type) :=
| Ok (a : A)
| Raise (e : exn).
Arguments Ok {A} a.
Arguments Raise {A} e.

(** ** The identifier normaliser: [normalize_id] *)

Module Normalizer.

(** A raw identifier of the configuration: an [int] or a [str]. *)
Inductive raw :=
| RInt (z : Z)
| RStr (s : pystr).

Section WithUnicode.
Context `{Unicode}.

(** [value.isdigit() or (value.startswith("-") and value[1:].isdigit())] *)
Definition numeric_looking (value : pystr) : bool :=
  isdigit value || (startswith_minus value && isdigit (tail_from_1 value)).

(** [int(value)] for a raw identifier. *)
Definition py_int (value : raw) : result Z :=
  match value with
  | RInt z => Ok z
  | RStr s =>
      match int_of_str s with
      | Some z => Ok z
      | None => Raise ValueError
      end
  end.

Definition normalize_id (value : raw) : result raw :=
  match value with
  | RInt z => Ok (RInt z)
  | RStr s =>
      if numeric_looking s then
        match py_int (RStr s) with
        | Ok z => Ok (RInt z)
        | Raise e => Raise e
        end
      else Ok (RStr s)
  end.
End WithUnicode.

End Normalizer.
Import Normalizer.

(** ** The messaging client

    The program talks to Telegram through three calls of the client:
    [get_entity], [send_message] and [send_file].  The client is a state
    machine of its own; each call returns or raises and leaves the client
    in a new state. *)

Module Client.

(** What comes of [asyncio.wait_for(self.client.get_entity(name), timeout=10)]:
    an entity with its [id], [asyncio.TimeoutError], or another exception. *)
Inductive lookup :=
| Found (id : Z)
| TimeoutError
| Failed.

(** The two calls that send, with the arguments the program passes. *)

Inductive request :=
| send_file (dest : Z) (file : N) (caption : option pystr)
    (caption_entities : option (list entity))
| send_message (dest : Z) (message : pystr) (parse_mode : option pystr).

Definition request_dest (r : request) : Z :=
  match r with
  | send_file dest _ _ _ => dest
  | send_message dest _ _ => dest
  end.

Inductive outcome :=
| Returned
| Raised (e : exn).

Class Messaging (Client : Type) := {
  get_entity : Client -> pystr -> lookup * Client;
  call : Client -> request -> outcome * Client
}.

(** A scripted client: it answers the calls from two lists, in order, and
    finds nobody, or returns normally, once a list is used up. *)
Record script := Script {
  lookups : list lookup;
  outcomes : list outcome
}.

Definition script_get_entity (c : script) (name : pystr) : lookup * script :=
  match lookups c with
  | [] => (Failed, c)
  | r :: rest => (r, Script rest (outcomes c))
  end.

Definition script_call (c : script) (r : request) : outcome * script :=
  match outcomes c with
  | [] => (Returned, c)
  | o :: rest => (o, Script (lookups c) rest)
  end.

Definition scripted : Messaging script := {|
  get_entity := script_get_entity;
  call := script_call
|}.

End Client.
Import Client.

(** ** The mapping resolver: [_resolve_mappings] *)

Module Resolver.

Section WithClient.
Context `{Unicode} {Client : Type} `{Messaging Client}.

(** The test guarding both directory lookups: the normalised value is a
    [str] that does not look numeric.  Returns the name to look up. *)
Definition symbolic (v : raw) : option pystr :=
  match v with
  | RStr s => if negb (numeric_looking s) then Some s else None
  | RInt _ => None
  end.

(** The body of [for d in raw_dests], lines 173-188: the id appended to
    [dest_ids], if any.  [normalize_id(d)] is not guarded, so that its
    exception leaves the function. *)
Definition resolve_destination (c : Client) (d : raw)
  : result (option Z) * Client :=
  match normalize_id d with
  | Raise e => (Raise e, c)
  | Ok d_norm =>
      match symbolic d_norm with
      | Some name =>
          match get_entity c name with
          | (Found id, c1) => (Ok (Some id), c1)
          | (TimeoutError, c1) => (Ok None, c1)
          | (Failed, c1) => (Ok None, c1)
          end
      | None =>
          match py_int d_norm with
          | Ok z => (Ok (Some z), c)
          | Raise _ => (Ok None, c)
          end
      end
  end.

Fixpoint resolve_destinations (c : Client) (raw_dests : list raw)
    (dest_ids : list Z) : result (list Z) * Client :=
  match raw_dests with
  | [] => (Ok dest_ids, c)
  | d :: rest =>
      match resolve_destination c d with
      | (Raise e, c1) => (Raise e, c1)
      | (Ok (Some id), c1) => resolve_destinations c1 rest (dest_ids ++ [id])
      | (Ok None, c1) => resolve_destinations c1 rest dest_ids
      end
  end.

(** Lines 150-169: [src_id], or [None] where the loop [continue]s. *)
Definition resolve_source (c : Client) (raw_src : raw)
  : option raw * Client :=
  let src_norm :=
    match normalize_id raw_src with
    | Ok v => v
    | Raise _ => raw_src
    end in
  match symbolic src_norm with
  | Some name =>
      match get_entity c name with
      | (Found id, c1) => (Some (RInt id), c1)
      | (TimeoutError, c1) => (None, c1)
      | (Failed, c1) => (None, c1)
      end
  | None => (Some src_norm, c)
  end.

Fixpoint resolve_loop (c : Client) (items : list (raw * list raw))
    (resolved : gmap Z (list Z)) : result (gmap Z (list Z)) * Client :=
  match items with
  | [] => (Ok resolved, c)
  | (raw_src, raw_dests) :: rest =>
      match resolve_source c raw_src with
      | (None, c1) => resolve_loop c1 rest resolved
      | (Some src_id, c1) =>
          match resolve_destinations c1 raw_dests [] with
          | (Raise e, c2) => (Raise e, c2)
          | (Ok [], c2) => resolve_loop c2 rest resolved
          | (Ok dest_ids, c2) =>
              match py_int src_id with
              | Ok k => resolve_loop c2 rest (<[k := dest_ids]> resolved)
              | Raise e => (Raise e, c2)
              end
          end
      end
  end.

(** What resolving one identifier comes to, told after the specification
    and not after the code: an integer is its own id; a string that is
    purely numeric, with an optional minus sign, is the integer it writes; any
    other string is a name, looked up in the directory in the state [c] the
    client is in, and has an id when the lookup finds one.  The last
    component is the state the client is left in. *)
Inductive identifies (c : Client) : raw -> option Z -> Client -> Prop :=
| identifies_int z :
    identifies c (RInt z) (Some z) c
| identifies_numeral s z :
    numeric_looking s = true -> int_of_str s = Some z ->
    identifies c (RStr s) (Some z) c
| identifies_found s id c' :
    numeric_looking s = false -> get_entity c s = (Found id, c') ->
    identifies c (RStr s) (Some id) c'
| identifies_timeout s c' :
    numeric_looking s = false -> get_entity c s = (TimeoutError, c') ->
    identifies c (RStr s) None c'
| identifies_failed s c' :
    numeric_looking s = false -> get_entity c s = (Failed, c') ->
    identifies c (RStr s) None c'.

(** [dest_ids] is what the declared destinations [raw_dests] come to when
    they are resolved one after the other from the client state [c], in the
    order of their declaration: the ids of those that have one, in that
    order. *)
Inductive resolved_in_order (c : Client)
  : list raw -> list Z -> Client -> Prop :=
| resolved_nil :
    resolved_in_order c [] [] c
| resolved_keep d id c1 rest ids c' :
    identifies c d (Some id) c1 -> resolved_in_order c1 rest ids c' ->
    resolved_in_order c (d :: rest) (id :: ids) c'
| resolved_skip d c1 rest ids c' :
    identifies c d None c1 -> resolved_in_order c1 rest ids c' ->
    resolved_in_order c (d :: rest) ids c'.

(** [raw_mappings] is a [dict], walked in insertion order: the list of
    its items.  The result is the new value of [self.mappings]. *)
Definition _resolve_mappings (c : Client) (raw_mappings : list (raw * list raw))
  : result (gmap Z (list Z)) * Client :=
  resolve_loop c raw_mappings ∅.
End WithClient.

End Resolver.
Import Resolver.

(** ** The content filter and the delivery engine: [_on_message] *)

Module Delivery.

(** What [_on_message] reads of [event.message]: [msg.action] (set on
    service messages), [msg.message], [msg.media] and [msg.entities], each
    of which may be [None]. *)
Record message := Message {
  action : option N;
  message_text : option pystr;
  media : option N;
  entities : option (list entity)
}.

Record new_message := NewMessage {
  chat_id : Z;
  event_message : message
}.

Record MirrorBot := Bot {
  mappings : gmap Z (list Z);
  delay : Q;
  keywords : list pystr
}.

(** The lines the handler writes to the log. *)
Inductive log_line :=
| SkippingNoKeyword
| NoDestinationConfigured (src_id : Z)
| Mirrored (src_id dest : Z)
| HitFloodWait (dest : Z) (wait : Z)
| PermissionDenied (dest : Z)
| FailedToMirror (dest : Z) (e : exn).

(** What the handler does to the outside, in order: a call of the client
    with what came of it, a call of [asyncio.sleep], a line of the log. *)
Inductive effect :=
| Call (r : request) (o : outcome)
| Sleep (t : Q)
| Log (l : log_line).

(** The requests of a trace, in order. *)
Fixpoint requests (t : list effect) : list request :=
  match t with
  | [] => []
  | Call r _ :: rest => r :: requests rest
  | _ :: rest => requests rest
  end.

(** Truth values: a [str] or a list is true when it is not empty, [None]
    is false. *)
Definition truthy {A} (x : option (list A)) : bool :=
  match x with
  | Some (_ :: _) => true
  | _ => false
  end.

(** [x if x else None]. *)
Definition or_None {A} (x : option (list A)) : option (list A) :=
  if truthy x then x else None.

Section WithClient.
Context `{Unicode} {Client : Type} `{Messaging Client}.

(** [__init__] stores the keywords lowercased. *)
Definition init (delay : Q) (keywords : list pystr) : MirrorBot :=
  Bot ∅ delay (List.map lower keywords).

(** [self.delay and self.delay > 0] *)
Definition pacing (bot : MirrorBot) : bool :=
  negb (Qeq_bool (delay bot) 0) && negb (Qle_bool (delay bot) 0).

(** Lines 128-131, after a send that returned. *)
Definition after_send (bot : MirrorBot) (src_id dest : Z) : list effect :=
  Log (Mirrored src_id dest)
  :: (if pacing bot then [Sleep (delay bot)] else []).

(** One call of the client inside the [try], and what follows when it
    returns. *)
Definition send_then_log (bot : MirrorBot) (c : Client) (src_id dest : Z)
    (r : request) : outcome * list effect * Client :=
  match call c r with
  | (Returned, c1) => (Returned, Call r Returned :: after_send bot src_id dest, c1)
  | (Raised e, c1) => (Raised e, [Call r (Raised e)], c1)
  end.

(** The body of the inner [try], lines 109-131: how it ends, what it
    did. *)
Definition try_send (bot : MirrorBot) (c : Client) (src_id dest : Z)
    (msg : message) (text : pystr) : outcome * list effect * Client :=
  match media msg with
  | Some m =>
      send_then_log bot c src_id dest
        (send_file dest m (or_None (Some text)) (or_None (entities msg)))
  | None =>
      if truthy (entities msg) then
        let html_text := entities_to_html text (default [] (entities msg)) in
        let markup := send_message dest html_text (Some (py "html")) in
        match call c markup with
        | (Returned, c1) =>
            (Returned, Call markup Returned :: after_send bot src_id dest, c1)
        | (Raised e, c1) =>
            let '(o, t, c2) :=
              send_then_log bot c1 src_id dest (send_message dest text None) in
            (o, Call markup (Raised e) :: t, c2)
        end
      else send_then_log bot c src_id dest (send_message dest text None)
  end.

(** The three [except] clauses of the inner [try], lines 133-140. *)
Definition handler (dest : Z) (o : outcome) : list effect :=
  match o with
  | Returned => []
  | Raised (FloodWaitError seconds) =>
      let wait := default 60 seconds in
      [Log (HitFloodWait dest wait); Sleep (inject_Z (wait + 5))]
  | Raised ChatWriteForbiddenError => [Log (PermissionDenied dest)]
  | Raised e => [Log (FailedToMirror dest e)]
  end.

(** One round of [for dest in dests]. *)
Definition deliver_to (bot : MirrorBot) (c : Client) (src_id dest : Z)
    (msg : message) (text : pystr) : list effect * Client :=
  let '(o, t, c1) := try_send bot c src_id dest msg text in
  (t ++ handler dest o, c1).

Fixpoint deliver (bot : MirrorBot) (c : Client) (src_id : Z)
    (dests : list Z) (msg : message) (text : pystr) : list effect * Client :=
  match dests with
  | [] => ([], c)
  | dest :: rest =>
      let '(t1, c1) := deliver_to bot c src_id dest msg text in
      let '(t2, c2) := deliver bot c1 src_id rest msg text in
      (t1 ++ t2, c2)
  end.

(** Lines 100-143: the destinations of the source chat, then the loop. *)
Definition dispatch (bot : MirrorBot) (c : Client) (event : new_message)
    (text : pystr) : list effect * Client :=
  let src_id := chat_id event in
  let dests := default [] (mappings bot !! src_id) in
  match dests with
  | [] => ([Log (NoDestinationConfigured src_id)], c)
  | _ => deliver bot c src_id dests (event_message event) text
  end.

Definition _on_message (bot : MirrorBot) (c : Client) (event : new_message)
  : list effect * Client :=
  let msg := event_message event in
  if bool_decide (action msg <> None) then ([], c)
  else if (negb (truthy (message_text msg))
           || strip_is_empty (default [] (message_text msg)))
          && bool_decide (media msg = None)
  then ([], c)
  else
    let text := default [] (message_text msg) in
    if match keywords bot with [] => false | _ => true end
       && negb (existsb (contains (lower text)) (keywords bot))
    then ([Log SkippingNoKeyword], c)
    else dispatch bot c event text.

(** The content filter as the specification words it:
    [accepts(message, keyword_list)], three rules in order. *)
Definition is_service (msg : message) : bool :=
  match action msg with
  | Some _ => true
  | None => false
  end.

Definition body (msg : message) : pystr := default [] (message_text msg).

Definition has_media (msg : message) : bool :=
  match media msg with
  | Some _ => true
  | None => false
  end.

Definition accepts (msg : message) (keyword_list : list pystr) : bool :=
  if is_service msg then false
  else if forallb is_whitespace (body msg) && negb (has_media msg) then false
  else match keyword_list with
       | [] => true
       | _ => existsb (fun k => contains (lower (body msg)) (lower k))
                keyword_list
       end.
End WithClient.

(** Sample data for the scenarios: a bot that mirrors chat 1 to the chats
    10 and 20 with two seconds between sends, and messages of chat 1. *)
Definition sample_bot : MirrorBot :=
  Bot (<[1 := [10; 20]]> ∅) (Qmake 2 1) [].

Definition text_message (s : list N) (ents : option (list entity)) : new_message :=
  NewMessage 1 (Message None (Some s) None ents).

Definition media_message (s : list N) (ents : option (list entity)) : new_message :=
  NewMessage 1 (Message None (Some s) (Some 7%N) ents).

End Delivery.
Import Delivery.

(** ** Auxiliary notions for the further properties *)

Module Literal.

Section WithUnicode.
Context `{Unicode}.

(** The id of an identifier that needs no directory lookup: an [int], or a
    numeral that [normalize_id] turns into one. *)
Definition literal (v : raw) : option Z :=
  match normalize_id v with
  | Ok (RInt z) => Some z
  | _ => None
  end.

(** What one item of a configuration made of such identifiers does to the
    table under construction. *)
Definition store_literal (resolved : gmap Z (list Z)) (item : raw * list raw)
  : gmap Z (list Z) :=
  match literal item.1, omap literal item.2 with
  | Some k, (id :: ids) => <[k := id :: ids]> resolved
  | _, _ => resolved
  end.
End WithUnicode.

End Literal.
Import Literal.

Module Primary.

(** The request with which the attempt at a destination begins: the media
    with its caption, or the transcoded text as HTML, or the plain text. *)
Definition primary_request (dest : Z) (msg : message) (text : pystr) : request :=
  match media msg with
  | Some m => send_file dest m (or_None (Some text)) (or_None (entities msg))
  | None =>
      if truthy (entities msg)
      then send_message dest (entities_to_html text (default [] (entities msg)))
             (Some (py "html"))
      else send_message dest text None
  end.

(** What follows the last call of an attempt. *)
Definition epilogue (bot : MirrorBot) (src_id dest : Z) (o : outcome) : list effect :=
  match o with
  | Returned => after_send bot src_id dest
  | Raised _ => @handler dest o
  end.

(** A client every call of which returns, and which finds nobody. *)
Definition obliging : Messaging unit := {|
  get_entity := fun c _ => (Failed, c);
  call := fun c _ => (Returned, c)
|}.

End Primary.
Import Primary.

(** ** The connection supervisor: [start]

    One round of the [while True] loop of [start], and the loop cut after a
    number of rounds.  The client offers three more calls here:
    [client.start()], the registration of the handler for a list of chats
    ([client.on(events.NewMessage(chats=listen_chats))]) and
    [client.run_until_disconnected()]. *)

Module Supervisor.

Class Connection (Client : Type) := {
  client_start : Client -> outcome * Client;
  on_new_message : Client -> list Z -> Client;
  run_until_disconnected : Client -> outcome * Client
}.

(** What a round does, in order. *)
Inductive supervision :=
| Start (o : outcome)
| Resolve (r : result (gmap Z (list Z)))
| Listen (chats : list Z)
| Run (o : outcome)
| Pause (seconds : Z).

(** The [except Exception] clause of [start], lines 70-79. *)
Definition recover (e : exn) : list supervision :=
  match e with
  | FloodWaitError seconds => [Pause (default 60 seconds + 5)]
  | _ => [Pause 5]
  end.

(** [list(self.mappings.keys())]; the order of the keys is not kept by the
    model of the dictionary, and the subscription does not depend on it. *)
Definition listen_chats (table : gmap Z (list Z)) : list Z :=
  (map_to_list table).*1.

Section WithClient.
Context `{Unicode} {Client : Type} `{Messaging Client} `{Connection Client}.

Definition with_mappings (bot : MirrorBot) (table : gmap Z (list Z)) : MirrorBot :=
  Bot table (delay bot) (keywords bot).

(** One round, lines 48-79: what it did, the bot and the client after it. *)
Definition round (bot : MirrorBot) (c : Client)
    (raw_mappings : list (raw * list raw))
  : list supervision * MirrorBot * Client :=
  match client_start c with
  | (Raised e, c1) => (Start (Raised e) :: recover e, bot, c1)
  | (Returned, c1) =>
      match _resolve_mappings c1 raw_mappings with
      | (Raise e, c2) =>
          (Start Returned :: Resolve (Raise e) :: recover e, bot, c2)
      | (Ok table, c2) =>
          let bot' := with_mappings bot table in
          match listen_chats table with
          | [] => ([Start Returned; Resolve (Ok table); Pause 5], bot', c2)
          | chats =>
              let c3 := on_new_message c2 chats in
              match run_until_disconnected c3 with
              | (Returned, c4) =>
                  ([Start Returned; Resolve (Ok table); Listen chats; Run Returned],
                   bot', c4)
              | (Raised e, c4) =>
                  (Start Returned :: Resolve (Ok table) :: Listen chats
                   :: Run (Raised e) :: recover e, bot', c4)
              end
          end
      end
  end.

(** The first [n] rounds of the loop. *)
Fixpoint start (n : nat) (bot : MirrorBot) (c : Client)
    (raw_mappings : list (raw * list raw))
  : list supervision * MirrorBot * Client :=
  match n with
  | O => ([], bot, c)
  | S n' =>
      let '(t1, bot1, c1) := round bot c raw_mappings in
      let '(t2, bot2, c2) := start n' bot1 c1 raw_mappings in
      (t1 ++ t2, bot2, c2)
  end.
End WithClient.

(** A connection that starts, and is lost with a flood wait of 30 seconds
    as soon as it listens. *)
Definition flooding : Connection script := {|
  client_start := fun c => (Returned, c);
  on_new_message := fun c _ => c;
  run_until_disconnected := fun c => (Raised (FloodWaitError (Some 30)), c)
|}.

End Supervisor.
Import Supervisor.

(** * Properties *)

(** ** Escaping *)

Module HtmlFacts.
Import Html.

Lemma escape_char_plain c : reserved c = false -> escape_char c = [c].
Proof.
  unfold reserved, escape_char. intros R.
  repeat (apply orb_false_elim in R as [R ?]).
  repeat match goal with E : (_ =? _)%N = false |- _ => rewrite E; clear E end.
  reflexivity.
Qed.

Lemma escape_char_reserved c :
  reserved c = true ->
  exists rest, escape_char c = 38%N :: rest /\ rest <> [].
Proof.
  unfold reserved, escape_char. intros R.
  destruct (c =? 38)%N; [eexists; split; [reflexivity | discriminate]|].
  destruct (c =? 60)%N; [eexists; split; [reflexivity | discriminate]|].
  destruct (c =? 62)%N; [eexists; split; [reflexivity | discriminate]|].
  destruct (c =? 34)%N; [eexists; split; [reflexivity | discriminate]|].
  destruct (c =? 39)%N; [eexists; split; [reflexivity | discriminate]|].
  discriminate.
Qed.

Lemma escape_cons c s : escape (c :: s) = escape_char c ++ escape s.
Proof. reflexivity. Qed.

Lemma escape_app s t : escape (s ++ t) = escape s ++ escape t.
Proof. unfold escape. apply flat_map_app. Qed.

Lemma escape_plain s : existsb reserved s = false -> escape s = s.
Proof.
  induction s as [|c s IH]; [reflexivity|]. cbn [existsb].
  intros E. apply orb_false_elim in E as [Ec Es].
  rewrite escape_cons, escape_char_plain, IH by assumption. reflexivity.
Qed.

Lemma escape_length s : (length s <= length (escape s))%nat.
Proof.
  induction s as [|c s IH]; [reflexivity|].
  rewrite escape_cons, length_app. cbn [length].
  destruct (reserved c) eqn:R.
  - destruct (escape_char_reserved c R) as (rest & -> & _). cbn [length]. lia.
  - rewrite escape_char_plain by assumption. cbn [length]. lia.
Qed.

Lemma escape_grows s :
  existsb reserved s = true -> (length s < length (escape s))%nat.
Proof.
  induction s as [|c s IH]; [discriminate|]. cbn [existsb].
  rewrite escape_cons, length_app. cbn [length].
  destruct (reserved c) eqn:R.
  - intros _. destruct (escape_char_reserved c R) as (rest & -> & Hne).
    pose proof (escape_length s). destruct rest; [congruence|].
    cbn [length]. lia.
  - cbn [orb]. intros E. specialize (IH E).
    rewrite escape_char_plain by assumption. cbn [length]. lia.
Qed.

Lemma escape_keeps_reserved s :
  existsb reserved s = true -> existsb reserved (escape s) = true.
Proof.
  induction s as [|c s IH]; [discriminate|]. cbn [existsb].
  rewrite escape_cons, existsb_app.
  destruct (reserved c) eqn:R.
  - intros _. destruct (escape_char_reserved c R) as (rest & -> & _).
    reflexivity.
  - cbn [orb]. intros E. rewrite (IH E). apply orb_true_r.
Qed.

(** C6, as stated, fails: escaping the ampersand twice escapes the
    ampersand of its own entity again. *)
Lemma escape_not_idempotent :
  escape (escape (py "&")) <> escape (py "&").
Proof. vm_compute. discriminate. Qed.

(** C6, amended: escaping a second time changes nothing exactly for the
    strings without a reserved character, which escaping leaves as they
    are. *)
Theorem escape_twice_iff_plain (s : pystr) :
  escape (escape s) = escape s <-> existsb reserved s = false.
Proof.
  split.
  - intros E. destruct (existsb reserved s) eqn:R; [|reflexivity].
    apply escape_keeps_reserved, escape_grows in R.
    rewrite E in R. lia.
  - intros R. rewrite (escape_plain s R). apply escape_plain, R.
Qed.

Lemma escape_twice_iff_plain_witness :
  escape (escape (py "a b")) = escape (py "a b").
Proof. apply (escape_twice_iff_plain (py "a b")). reflexivity. Defined.

End HtmlFacts.

(** ** The transcoder *)

Module TranscoderFacts.

Section Grouping.
Context {A : Type}.
Implicit Types (inserts : list (Z * A)) (m : gmap Z (list A)).

Lemma scheduled_at_app i inserts1 inserts2 :
  scheduled_at i (inserts1 ++ inserts2)
  = scheduled_at i inserts1 ++ scheduled_at i inserts2.
Proof.
  induction inserts1 as [|[pos tag] l IH]; [reflexivity|].
  cbn [app scheduled_at]. destruct (pos =? i); rewrite IH; reflexivity.
Qed.

Lemma in_scheduled_at i (x : A) inserts :
  In x (scheduled_at i inserts) <-> In (i, x) inserts.
Proof.
  induction inserts as [|[pos tag] l IH]; [reflexivity|].
  cbn [scheduled_at In]. destruct (Z.eqb_spec pos i) as [->|Hne].
  - cbn [In]. rewrite IH. split; intros [E|E]; auto; left; congruence.
  - rewrite IH. split; [auto|]. intros [E|E]; [congruence | assumption].
Qed.

(** The dictionary built by [setdefault] and [append] holds, under every
    position, the tags scheduled there in the order of [inserts]. *)
Lemma inserts_by_pos_lookup inserts i :
  default [] (inserts_by_pos inserts !! i) = scheduled_at i inserts.
Proof.
  unfold inserts_by_pos.
  induction inserts as [|[pos tag] l IH] using rev_ind.
  - cbn. rewrite lookup_empty. reflexivity.
  - rewrite fold_left_app, scheduled_at_app. cbn [fold_left scheduled_at].
    unfold setdefault_append at 1. cbn [fst snd].
    destruct (Z.eqb_spec pos i) as [->|Hne].
    + rewrite lookup_insert_eq. cbn [default]. rewrite IH. reflexivity.
    + rewrite lookup_insert_ne by assumption. rewrite IH, app_nil_r.
      reflexivity.
Qed.

Lemma emit_at_scheduled lit text inserts i :
  emit_at lit text (inserts_by_pos inserts) i
  = scheduled_at (Z.of_nat i) inserts
    ++ match text !! i with Some c => [lit i c] | None => [] end.
Proof. unfold emit_at. rewrite inserts_by_pos_lookup. reflexivity. Qed.
End Grouping.

Lemma scheduled_at_map {A B} (f : A -> B) i (inserts : list (Z * A)) :
  scheduled_at i (List.map (fun p => (p.1, f p.2)) inserts)
  = List.map f (scheduled_at i inserts).
Proof.
  induction inserts as [|[pos tag] l IH]; [reflexivity|].
  cbn [List.map scheduled_at fst snd].
  destruct (pos =? i); cbn [List.map]; rewrite IH; reflexivity.
Qed.

(** Relabelling the pieces commutes with the walk. *)
Lemma walk_map {A B} (f : A -> B) lit text (inserts : list (Z * A)) :
  List.map f (walk lit text (inserts_by_pos inserts))
  = walk (fun i c => f (lit i c)) text
      (inserts_by_pos (List.map (fun p => (p.1, f p.2)) inserts)).
Proof.
  unfold walk. induction (seq 0 (S (length text))) as [|i l IH];
    [reflexivity|].
  cbn [flat_map]. rewrite List.map_app, IH. f_equal.
  rewrite !emit_at_scheduled, List.map_app, scheduled_at_map.
  f_equal. destruct (text !! i); reflexivity.
Qed.

Lemma render_labelled_inserts k entities :
  List.map (fun p => (p.1, render p.2)) (labelled_inserts k entities)
  = build_inserts entities.
Proof.
  revert k. induction entities as [|ent rest IH]; intros k; [reflexivity|].
  cbn [labelled_inserts build_inserts].
  destruct (tags (cls ent)) as [[s t]|]; cbn [List.map fst snd render];
    rewrite IH; reflexivity.
Qed.

Lemma render_labelled_out text entities :
  List.map render (labelled_out text entities) = out_pieces text entities.
Proof.
  unfold labelled_out, out_pieces.
  rewrite walk_map, render_labelled_inserts. reflexivity.
Qed.

(** *** What the labelled inserts are *)

Lemma in_labelled_inserts k0 entities pos x :
  In (pos, x) (labelled_inserts k0 entities) <->
  exists j ent s t,
    entities !! j = Some ent /\ tags (cls ent) = Some (s, t) /\
    ((pos = offset ent /\ x = PTag pos (k0 + j) false s) \/
     (pos = offset ent + ent_length ent /\ x = PTag pos (k0 + j) true t)).
Proof.
  revert k0. induction entities as [|e rest IH]; intros k0.
  - cbn. split; [tauto|]. intros (j & ent & s & t & E & _). discriminate.
  - cbn [labelled_inserts]. split.
    + intros Hin.
      assert (Hrest : In (pos, x) (labelled_inserts (S k0) rest) ->
              exists j ent s t,
                (e :: rest) !! j = Some ent /\ tags (cls ent) = Some (s, t) /\
                ((pos = offset ent /\ x = PTag pos (k0 + j) false s) \/
                 (pos = offset ent + ent_length ent
                  /\ x = PTag pos (k0 + j) true t))).
      { intros Hr. apply IH in Hr as (j & ent & s & t & E & T & D).
        exists (S j), ent, s, t. replace (k0 + S j)%nat with (S k0 + j)%nat by lia.
        auto. }
      destruct (tags (cls e)) as [[s t]|] eqn:T; [|auto].
      destruct Hin as [E|[E|Hr]]; [| |auto].
      * injection E as <- <-. exists O, e, s, t.
        rewrite Nat.add_0_r. auto.
      * injection E as <- <-. exists O, e, s, t.
        rewrite Nat.add_0_r. auto.
    + intros (j & ent & s & t & E & T & D).
      destruct j as [|j].
      * injection E as ->. rewrite T, Nat.add_0_r in *.
        destruct D as [[-> ->]|[-> ->]]; cbn; auto.
      * assert (Hr : In (pos, x) (labelled_inserts (S k0) rest)).
        { apply IH. exists j, ent, s, t.
          replace (S k0 + j)%nat with (k0 + S j)%nat by lia. auto. }
        destruct (tags (cls e)) as [[s' t']|]; cbn; auto.
Qed.

(** Every labelled insert is a tag that knows its position. *)
Lemma labelled_inserts_rank k0 entities pos x :
  In (pos, x) (labelled_inserts k0 entities) ->
  lit_char x = None /\ (rank x).1 = pos /\ (0 < (rank x).2)%nat.
Proof.
  intros Hin. apply in_labelled_inserts in Hin
    as (j & ent & s & t & _ & _ & [[_ ->]|[_ ->]]); cbn; repeat split; lia.
Qed.

(** *** What the walk emits *)

Lemma in_walk {A} (lit : nat -> char -> A) text inserts x :
  In x (walk lit text (inserts_by_pos inserts)) <->
  exists i : nat, (i <= length text)%nat /\
    (In (Z.of_nat i, x) inserts \/
     exists c, text !! i = Some c /\ x = lit i c).
Proof.
  unfold walk. rewrite in_flat_map. split.
  - intros (i & Hi & Hx). apply in_seq in Hi. exists i. split; [lia|].
    rewrite emit_at_scheduled in Hx. apply in_app_or in Hx as [Hx|Hx].
    + left. apply in_scheduled_at, Hx.
    + right. destruct (text !! i) as [c|]; [|destruct Hx].
      destruct Hx as [<-|[]]. eauto.
  - intros (i & Hi & Hx). exists i. split; [apply in_seq; lia|].
    rewrite emit_at_scheduled. apply in_or_app. destruct Hx as [Hx|(c & -> & ->)].
    + left. apply in_scheduled_at, Hx.
    + right. left. reflexivity.
Qed.

(** A tag is emitted exactly when it is scheduled at one of the positions
    [0 .. len(text)] the walk visits. *)
Lemma tag_in_labelled_out text entities pos k closing s :
  In (PTag pos k closing s) (labelled_out text entities) <->
  In (pos, PTag pos k closing s) (labelled_inserts 0 entities) /\
  0 <= pos <= Z.of_nat (length text).
Proof.
  unfold labelled_out. rewrite in_walk. split.
  - intros (i & Hi & [Hin|(c & _ & E)]); [|discriminate].
    pose proof (labelled_inserts_rank _ _ _ _ Hin) as (_ & R & _).
    cbn in R. subst pos. split; [assumption | lia].
  - intros (Hin & Hpos). exists (Z.to_nat pos). split; [lia|]. left.
    rewrite Z2Nat.id by lia. assumption.
Qed.

Lemma omap_scheduled_tags i (inserts : list (Z * piece)) :
  (forall pos x, In (pos, x) inserts -> lit_char x = None) ->
  omap lit_char (scheduled_at i inserts) = [].
Proof.
  induction inserts as [|[pos tag] l IH]; intros Hall; [reflexivity|].
  cbn [scheduled_at].
  assert (omap lit_char (scheduled_at i l) = []) as IH'.
  { apply IH. intros p x Hin. apply (Hall p x). right. assumption. }
  destruct (pos =? i); [|assumption].
  cbn [omap list_omap]. rewrite (Hall pos tag) by (left; reflexivity).
  assumption.
Qed.

(** The literals of the walk are the characters of the text, in order. *)
Lemma lit_chars_from (inserts : list (Z * piece)) pre suf :
  (forall pos x, In (pos, x) inserts -> lit_char x = None) ->
  omap lit_char
    (flat_map (emit_at PLit (pre ++ suf) (inserts_by_pos inserts))
       (seq (length pre) (S (length suf))))
  = suf.
Proof.
  intros Hall. revert pre. induction suf as [|c suf IH]; intros pre.
  - cbn [length seq flat_map]. rewrite !app_nil_r, emit_at_scheduled, omap_app.
    rewrite omap_scheduled_tags by assumption.
    destruct (pre !! length pre) eqn:E; [|reflexivity].
    apply lookup_lt_Some in E. lia.
  - cbn [length]. rewrite <- cons_seq. cbn [flat_map].
    rewrite omap_app, emit_at_scheduled, omap_app.
    rewrite omap_scheduled_tags by assumption.
    destruct ((pre ++ c :: suf) !! length pre) eqn:E;
      rewrite list_lookup_middle in E by reflexivity; [|discriminate].
    injection E as <-. cbn [app omap list_omap lit_char].
    f_equal. specialize (IH (pre ++ [c])).
    rewrite <- app_assoc, length_app, Nat.add_1_r in IH. exact IH.
Qed.

Lemma lit_chars text entities :
  omap lit_char (labelled_out text entities) = text.
Proof.
  apply (lit_chars_from (labelled_inserts 0 entities) [] text).
  intros pos x Hin. apply (labelled_inserts_rank _ _ _ _ Hin).
Qed.

Lemma render_lits (l : list piece) :
  (forall x, In x l -> lit_char x <> None) ->
  concat (List.map render l) = Html.escape (omap lit_char l).
Proof.
  induction l as [|x l IH]; intros Hall; [reflexivity|].
  assert (Hl : forall y, In y l -> lit_char y <> None)
    by (intros y Hy; apply Hall; right; assumption).
  destruct x as [pos k b s|i c].
  - exfalso. apply (Hall (PTag pos k b s)); [left|]; reflexivity.
  - cbn [List.map concat render omap list_omap lit_char].
    rewrite (IH Hl), HtmlFacts.escape_cons. cbn [Html.escape flat_map].
    rewrite app_nil_r. reflexivity.
Qed.

(** The output string is the labelled list of pieces, rendered and
    joined. *)
Lemma render_labelled text entities :
  concat (List.map render (labelled_out text entities))
  = entities_to_html text entities.
Proof.
  destruct entities as [|ent rest].
  - cbn [entities_to_html]. rewrite render_lits, lit_chars; [reflexivity|].
    intros [pos k b s|i c] Hin; [|discriminate].
    apply tag_in_labelled_out in Hin as [[] _].
  - rewrite render_labelled_out. reflexivity.
Qed.

(** *** The order of the output *)

Local Abbreviation seq_lt :=
  (fun p q : Z * piece => ((rank p.2).2 < (rank q.2).2)%nat).

Local Abbreviation above a :=
  (fun x : piece =>
     Z.of_nat a < (rank x).1 \/ ((rank x).1 = Z.of_nat a /\ (0 < (rank x).2)%nat)).

Lemma labelled_inserts_sorted k entities :
  StronglySorted seq_lt (labelled_inserts k entities) /\
  Forall (fun p : Z * piece => (2 * k < (rank p.2).2)%nat)
    (labelled_inserts k entities).
Proof.
  revert k. induction entities as [|ent rest IH]; intros k.
  - split; constructor.
  - cbn [labelled_inserts]. destruct (IH (S k)) as [Hs Hf].
    assert (Hf' : forall n, (n <= 2 * k + 2)%nat ->
              Forall (fun p : Z * piece => (n < (rank p.2).2)%nat)
                (labelled_inserts (S k) rest)).
    { intros n Hn. eapply Forall_impl; [exact Hf|]. cbn beta. intros. lia. }
    destruct (tags (cls ent)) as [[s t]|].
    + split.
      * apply StronglySorted_cons. split.
        { constructor; [cbn; lia|]. apply Hf'. cbn. lia. }
        apply StronglySorted_cons. split; [|assumption].
        apply Hf'. cbn. lia.
      * constructor; [cbn; lia|]. constructor; [cbn; lia|].
        apply Hf'. lia.
    + split; [assumption|]. apply Hf'. lia.
Qed.

Lemma scheduled_at_sorted i (inserts : list (Z * piece)) :
  (forall pos x, In (pos, x) inserts -> (rank x).1 = pos) ->
  StronglySorted seq_lt inserts ->
  StronglySorted before (scheduled_at i inserts).
Proof.
  induction inserts as [|[pos tag] l IH]; intros Hpos Hs; [constructor|].
  apply StronglySorted_cons in Hs as [Hf Hs].
  assert (Hl : forall p x, In (p, x) l -> (rank x).1 = p)
    by (intros p x Hin; apply Hpos; right; assumption).
  cbn [scheduled_at]. destruct (Z.eqb_spec pos i) as [->|Hne]; [|auto].
  apply StronglySorted_cons. split; [|auto].
  apply List.Forall_forall. intros x Hx. apply in_scheduled_at in Hx.
  right. split.
  - rewrite (Hl i x Hx). apply Hpos. left. reflexivity.
  - rewrite List.Forall_forall in Hf. apply (Hf (i, x) Hx).
Qed.

Section Sorted.
Variables (text : list N) (inserts : list (Z * piece)).
Hypothesis inserts_rank :
  forall pos x, In (pos, x) inserts ->
    (rank x).1 = pos /\ (0 < (rank x).2)%nat.
Hypothesis inserts_sorted : StronglySorted seq_lt inserts.

Let block := emit_at PLit text (inserts_by_pos inserts).

Lemma in_block a x :
  In x (block a) ->
  ((rank x).1 = Z.of_nat a /\ (0 < (rank x).2)%nat) \/
  rank x = (Z.of_nat a + 1, O).
Proof.
  unfold block. rewrite emit_at_scheduled. intros Hin.
  apply in_app_or in Hin as [Hin|Hin].
  - left. apply in_scheduled_at in Hin. apply inserts_rank, Hin.
  - right. destruct (text !! a); [|destruct Hin].
    destruct Hin as [<-|[]]. reflexivity.
Qed.

Lemma block_sorted a : StronglySorted before (block a).
Proof.
  unfold block. rewrite emit_at_scheduled. apply StronglySorted_app.
  split; [|split].
  - intros x y Hx Hy. apply list_elem_of_In, in_scheduled_at in Hx.
    apply inserts_rank in Hx as [Hx _].
    destruct (text !! a); [|inversion Hy].
    apply list_elem_of_singleton in Hy as ->. left. rewrite Hx. cbn. lia.
  - apply scheduled_at_sorted; [|assumption].
    intros pos x Hin. apply inserts_rank, Hin.
  - destruct (text !! a); repeat constructor.
Qed.

Lemma blocks_sorted m a :
  StronglySorted before (flat_map block (seq a m)) /\
  Forall (above a) (flat_map block (seq a m)).
Proof.
  revert a. induction m as [|m IH]; intros a; [split; constructor|].
  cbn [seq flat_map]. destruct (IH (S a)) as [Hs Hf].
  rewrite List.Forall_forall in Hf. split.
  - apply StronglySorted_app. split; [|split; [apply block_sorted | exact Hs]].
    intros x y Hx Hy. apply list_elem_of_In in Hx, Hy.
    apply in_block in Hx. apply Hf in Hy. unfold before.
    destruct Hx as [[Hx _]|Hx]; rewrite Hx; cbn [fst snd]; lia.
  - apply Forall_app. split; apply List.Forall_forall; intros x Hx.
    + apply in_block in Hx. destruct Hx as [[Hx ?]|Hx]; rewrite Hx;
        cbn [fst snd]; lia.
    + apply Hf in Hx. lia.
Qed.
End Sorted.

(** The output is in the order of [rank]: positions ascending, and at one
    position the tags in the order the entities were declared, before the
    character of that position. *)
Lemma labelled_out_sorted text entities :
  StronglySorted before (labelled_out text entities).
Proof.
  apply blocks_sorted.
  - intros pos x Hin. apply (labelled_inserts_rank _ _ _ _ Hin).
  - apply labelled_inserts_sorted.
Qed.

Lemma sorted_lookup_before (l : list piece) i j x y :
  StronglySorted before l -> (i < j)%nat ->
  l !! i = Some x -> l !! j = Some y -> before x y.
Proof.
  intros Hs. revert i j. induction Hs as [|a l Hs IH Hf]; intros i j Hij Hi Hj.
  - discriminate.
  - destruct j as [|j]; [lia|]. cbn in Hj. destruct i as [|i].
    + injection Hi as ->. rewrite List.Forall_forall in Hf.
      apply Hf. apply list_elem_of_In. eapply list_elem_of_lookup_2, Hj.
    + cbn in Hi. apply (IH i j); [lia | assumption | assumption].
Qed.

Lemma before_asym x y : before x y -> before y x -> False.
Proof. unfold before. lia. Qed.


Lemma sorted_lookup_inj (l : list piece) i j x :
  StronglySorted before l -> l !! i = Some x -> l !! j = Some x -> i = j.
Proof.
  intros Hs Hi Hj. destruct (lt_eq_lt_dec i j) as [[Hlt|E]|Hgt];
    [exfalso | assumption | exfalso].
  - pose proof (sorted_lookup_before l i j x x Hs Hlt Hi Hj) as Hb.
    apply (before_asym _ _ Hb Hb).
  - pose proof (sorted_lookup_before l j i x x Hs Hgt Hj Hi) as Hb.
    apply (before_asym _ _ Hb Hb).
Qed.

(** *** Matching tags *)






(** Why a well-formed annotation has a length that is not negative: with
    offset 1 and length -1 on a text of two characters the offset is not
    negative and the end is within the text, and yet the closing tag is
    emitted before the opening tag, which nothing closes afterwards. *)
Lemma negative_length_closes_first :
  (forall ent, In ent [Entity MessageEntityBold 1 (-1)] ->
     0 <= offset ent /\
     offset ent + ent_length ent <= Z.of_nat (length (py "ab"))) /\
  entities_to_html (py "ab") [Entity MessageEntityBold 1 (-1)]
  = py "</b>a<b>b" /\
  labelled_out (py "ab") [Entity MessageEntityBold 1 (-1)]
  = [PTag 0 0 true (py "</b>"); PLit 0 97; PTag 1 0 false (py "<b>"); PLit 1 98] /\
  ~ (forall i pos k s,
       labelled_out (py "ab") [Entity MessageEntityBold 1 (-1)] !! i
       = Some (PTag pos k false s) ->
       exists j pos' t, (i < j)%nat /\
         labelled_out (py "ab") [Entity MessageEntityBold 1 (-1)] !! j
         = Some (PTag pos' k true t)).
Proof.
  split; [|split; [|split]].
  - intros ent [<-|[]]. cbn. lia.
  - vm_compute. reflexivity.
  - vm_compute. reflexivity.
  - intros Hall.
    destruct (Hall 2%nat 1 O (py "<b>")) as (j & pos' & t & Hj & E);
      [vm_compute; reflexivity|].
    do 3 (destruct j as [|j]; [lia|]).
    destruct j as [|j]; vm_compute in E; discriminate.
Qed.



(** *** Annotations that run past the end of the text *)

(** C10, as stated, fails for a negative offset: the annotation runs past
    the end of the text and its offset is at most the length of the text,
    but position -1 is not visited and neither of its tags is emitted. *)
Lemma negative_offset_drops_opening_tag :
  Z.of_nat (length (py "ab")) < -1 + 10 /\
  -1 <= Z.of_nat (length (py "ab")) /\
  entities_to_html (py "ab") [Entity MessageEntityBold (-1) 10] = py "ab" /\
  labelled_out (py "ab") [Entity MessageEntityBold (-1) 10]
  = [PLit 0 97; PLit 1 98].
Proof. repeat split; try (cbn; lia); vm_compute; reflexivity. Qed.

(** C10, amended: for an annotation that has tags and ends strictly after
    the end of the text, the transcoder still returns a string, made of the
    pieces of the walk; the closing tag of the annotation is not among
    them; its opening tag is among them, once, when
    0 <= offset <= len(text), and is not among them otherwise. *)
Theorem out_of_range_closing_tag_dropped (text : list N) (entities : list entity)
    (k : nat) (ent : entity) (s t : list N) :
  entities !! k = Some ent ->
  tags (cls ent) = Some (s, t) ->
  Z.of_nat (length text) < offset ent + ent_length ent ->
  let out := labelled_out text entities in
  concat (List.map render out) = entities_to_html text entities /\
  (forall j pos t', out !! j <> Some (PTag pos k true t')) /\
  (0 <= offset ent <= Z.of_nat (length text) ->
   exists i, out !! i = Some (PTag (offset ent) k false s) /\
     forall i' pos s', out !! i' = Some (PTag pos k false s') -> i' = i) /\
  (~ 0 <= offset ent <= Z.of_nat (length text) ->
   forall i pos s', out !! i <> Some (PTag pos k false s')).
Proof.
  intros E T Hlong out.
  assert (Hk : forall i pos b s', out !! i = Some (PTag pos k b s') ->
            0 <= pos <= Z.of_nat (length text) /\
            ((b = false /\ pos = offset ent /\ s' = s) \/
             (b = true /\ pos = offset ent + ent_length ent /\ s' = t))).
  { intros i pos b s' Hi.
    assert (Hin : In (PTag pos k b s') out)
      by (apply list_elem_of_In; eapply list_elem_of_lookup_2, Hi).
    apply tag_in_labelled_out in Hin as [Hin Hpos]. split; [assumption|].
    apply in_labelled_inserts in Hin
      as (k' & ent' & s0 & t0 & E' & T' & D). cbn [Nat.add] in D.
    destruct D as [[Hp [= <- <- <-]]|[Hp [= <- <- <-]]];
      rewrite E in E'; injection E' as <-; rewrite T in T';
      injection T' as <- <-; auto. }
  split; [apply render_labelled|]. split; [|split].
  - intros j pos t' Hj. apply Hk in Hj as [Hpos [[[=] _]|(_ & -> & _)]]. lia.
  - intros Hoff.
    assert (Hopen : In (PTag (offset ent) k false s) out).
    { apply tag_in_labelled_out. split; [|assumption].
      apply in_labelled_inserts. exists k, ent, s, t. auto. }
    apply list_elem_of_In, list_elem_of_lookup_1 in Hopen as [i Hi].
    exists i. split; [assumption|]. intros i' pos s' Hi'.
    pose proof (Hk _ _ _ _ Hi') as [_ [(_ & -> & ->)|([=] & _)]].
    apply (sorted_lookup_inj out i' i _ (labelled_out_sorted _ _) Hi' Hi).
  - intros Hoff i pos s' Hi.
    apply Hk in Hi as [Hpos [(_ & -> & _)|([=] & _)]]. auto.
Qed.

Lemma out_of_range_closing_tag_dropped_witness :
  exists i,
    labelled_out (py "ab") [Entity MessageEntityBold 1 5] !! i
    = Some (PTag 1 0 false (py "<b>")) /\
    forall i' pos s',
      labelled_out (py "ab") [Entity MessageEntityBold 1 5] !! i'
      = Some (PTag pos 0 false s') -> i' = i.
Proof.
  refine (proj1 (proj2 (proj2
    (out_of_range_closing_tag_dropped (py "ab") [Entity MessageEntityBold 1 5]
       O (Entity MessageEntityBold 1 5) (py "<b>") (py "</b>") _ _ _))) _).
  - reflexivity.
  - reflexivity.
  - cbn. lia.
  - cbn. lia.
Defined.

(** *** The URL entity *)

(** C3: for an annotation of class [MessageEntityUrl] the opening piece is
    the nine characters of an anchor tag up to the opening quote of its
    [href]; the annotated text follows as text and the closing tag comes
    straight after it, so that the anchor-open tag is never completed: on
    the text [http://a.b], annotated as a whole, the output is not the
    anchor element the claim describes. *)
Theorem url_entity_open_tag_incomplete :
  tags MessageEntityUrl = Some (py "<a href=" ++ dquote, py "</a>") /\
  entities_to_html (py "http://a.b") [Entity MessageEntityUrl 0 10]
  = py "<a href=" ++ dquote ++ py "http://a.b</a>" /\
  entities_to_html (py "http://a.b") [Entity MessageEntityUrl 0 10]
  <> py "<a href=" ++ dquote ++ py "http://a.b" ++ dquote ++ py ">http://a.b</a>".
Proof.
  split; [reflexivity|]. split; [vm_compute; reflexivity|].
  vm_compute. discriminate.
Qed.

End TranscoderFacts.

(** ** The identifier normaliser *)

Module NormalizerFacts.

Section WithUnicode.
Context `{Unicode}.

Lemma normalize_id_int z : normalize_id (RInt z) = Ok (RInt z).
Proof. reflexivity. Qed.

Lemma normalize_id_symbolic s :
  numeric_looking s = false -> normalize_id (RStr s) = Ok (RStr s).
Proof. intros E. cbn. rewrite E. reflexivity. Qed.

Lemma normalize_id_numeric s z :
  numeric_looking s = true -> int_of_str s = Some z ->
  normalize_id (RStr s) = Ok (RInt z).
Proof. intros E V. cbn. rewrite E, V. reflexivity. Qed.

(** The normaliser raises exactly on the strings that [isdigit] takes for
    numeric and [int] refuses. *)
Lemma normalize_id_raises value e :
  normalize_id value = Raise e <->
  exists s, value = RStr s /\ numeric_looking s = true /\
            int_of_str s = None /\ e = ValueError.
Proof.
  split.
  - destruct value as [z|s]; [discriminate|]. cbn.
    destruct (numeric_looking s) eqn:E; [|discriminate].
    destruct (int_of_str s) eqn:V; [discriminate|]. intros [= <-].
    exists s. auto.
  - intros (s & -> & E & V & ->). cbn. rewrite E, V. reflexivity.
Qed.

(** What the normaliser returns is an integer or the string it was given. *)
Lemma normalize_id_returns value v :
  normalize_id value = Ok v ->
  (exists z, v = RInt z) \/ (exists s, value = RStr s /\ v = RStr s
                                      /\ numeric_looking s = false).
Proof.
  destruct value as [z|s]; cbn.
  - intros [= <-]. eauto.
  - destruct (numeric_looking s) eqn:E.
    + destruct (int_of_str s); [|discriminate]. intros [= <-]. eauto.
    + intros [= <-]. eauto.
Qed.

End WithUnicode.

(** C4: the claim is that no input makes [normalize_id] raise.  The string
    made of the one character U+00B2 (superscript two) passes the test
    [value.isdigit()], so that [int(value)] is called, and [int] refuses
    the character: the function raises [ValueError] where the claim has the
    string pass through as a symbolic token.  ASCII numerals and names
    behave as the claim says. *)
Theorem normalize_id_raises_on_superscript_digit :
  @isdigit excerpt [178%N] = true /\
  @int_of_str excerpt [178%N] = None /\
  @normalize_id excerpt (RStr [178%N]) = Raise ValueError /\
  @normalize_id excerpt (RStr (py "-100123")) = Ok (RInt (-100123)) /\
  @normalize_id excerpt (RStr (py "@channelA")) = Ok (RStr (py "@channelA")).
Proof. repeat split; vm_compute; reflexivity. Qed.

End NormalizerFacts.

(** ** The mapping resolver *)

Module ResolverFacts.

Section WithClient.
Context `{Unicode} {Client : Type} `{Messaging Client}.

Lemma resolve_destination_identifies (c c1 : Client) (d : raw) r :
  resolve_destination c d = (Ok r, c1) -> identifies c d r c1.
Proof.
  unfold resolve_destination.
  destruct (normalize_id d) as [d_norm|e] eqn:E; [|discriminate].
  destruct d as [z|s]; cbn in E.
  - injection E as <-. cbn. intros [= <- <-]. constructor.
  - destruct (numeric_looking s) eqn:Hn.
    + destruct (int_of_str s) as [z|] eqn:Hz; [|discriminate].
      injection E as <-. cbn. intros [= <- <-]. constructor; assumption.
    + injection E as <-. cbn [symbolic]. rewrite Hn. cbn [negb].
      destruct (get_entity c s) as [[id| |] c'] eqn:Hg; intros [= <- <-];
        [apply identifies_found | apply identifies_timeout
        | apply identifies_failed]; assumption.
Qed.

Lemma resolve_destinations_in_order (raw_dests : list raw) :
  forall (c c' : Client) (acc dest_ids : list Z),
    resolve_destinations c raw_dests acc = (Ok dest_ids, c') ->
    exists ids, dest_ids = acc ++ ids /\ resolved_in_order c raw_dests ids c'.
Proof.
  induction raw_dests as [|d rest IH]; intros c c' acc dest_ids.
  - cbn. intros [= <- <-]. exists []. split; [rewrite app_nil_r; reflexivity|].
    constructor.
  - cbn [resolve_destinations].
    destruct (resolve_destination c d) as [[[id|]|e] c1] eqn:E; [| |discriminate];
      apply resolve_destination_identifies in E;
      intros Hrest; apply IH in Hrest as (ids & -> & Hids).
    + exists (id :: ids). split; [rewrite <- app_assoc; reflexivity|].
      eapply resolved_keep; eassumption.
    + exists ids. split; [reflexivity|]. eapply resolved_skip; eassumption.
Qed.

Lemma resolve_source_identifies (c c1 : Client) (raw_src src_id : raw) k :
  resolve_source c raw_src = (Some src_id, c1) ->
  py_int src_id = Ok k ->
  identifies c raw_src (Some k) c1.
Proof.
  unfold resolve_source. destruct raw_src as [z|s]; cbn [normalize_id].
  - cbn. intros [= <- <-] [= <-]. constructor.
  - destruct (numeric_looking s) eqn:Hn.
    + cbn [py_int]. destruct (int_of_str s) as [z|] eqn:Hz.
      * cbn. intros [= <- <-] [= <-]. constructor; assumption.
      * cbn [symbolic]. rewrite Hn. cbn [negb]. intros [= <- <-].
        cbn [py_int]. rewrite Hz. discriminate.
    + cbn [symbolic]. rewrite Hn. cbn [negb].
      destruct (get_entity c s) as [[id| |] c'] eqn:Hg; intros [= <- <-].
      cbn. intros [= <-]. apply identifies_found; assumption.
Qed.

(** Every entry of the table the loop returns was in the table it started
    from, or was stored by one of the items: that item's source has the key
    for id, and the list is that item's destinations resolved in the order
    of their declaration, from the state the client was then in. *)
Lemma resolve_loop_stored (items : list (raw * list raw)) src dest_ids :
  forall (c c' : Client) (resolved table : gmap Z (list Z)),
    resolve_loop c items resolved = (Ok table, c') ->
    table !! src = Some dest_ids ->
    resolved !! src = Some dest_ids \/
    (dest_ids <> [] /\
     exists pre raw_src raw_dests post table_pre c_a c_b c_c,
       items = pre ++ (raw_src, raw_dests) :: post /\
       resolve_loop c pre resolved = (Ok table_pre, c_a) /\
       identifies c_a raw_src (Some src) c_b /\
       resolved_in_order c_b raw_dests dest_ids c_c /\
       resolve_loop c_c post (<[src := dest_ids]> table_pre) = (Ok table, c')).
Proof.
  induction items as [|[raw_src raw_dests] rest IH]; intros c c' resolved table.
  - cbn. intros [= <- <-]. auto.
  - intros Hrun Hk.
    assert (Hstep : forall c1 resolved1,
              (forall items', resolve_loop c ((raw_src, raw_dests) :: items') resolved
                              = resolve_loop c1 items' resolved1) ->
              resolved1 !! src = Some dest_ids \/
              (dest_ids <> [] /\
               exists pre s ds post table_pre c_a c_b c_c,
                 (raw_src, raw_dests) :: rest = pre ++ (s, ds) :: post /\
                 resolve_loop c pre resolved = (Ok table_pre, c_a) /\
                 identifies c_a s (Some src) c_b /\
                 resolved_in_order c_b ds dest_ids c_c /\
                 resolve_loop c_c post (<[src := dest_ids]> table_pre)
                 = (Ok table, c'))).
    { intros c1 resolved1 Heq. rewrite Heq in Hrun.
      destruct (IH _ _ _ _ Hrun Hk)
        as [Hl|(Hne & pre & s & ds & post & tp & ca & cb & cc
                & -> & Hpre & Hs & Hds & Hpost)]; [auto|].
      right. split; [exact Hne|].
      exists ((raw_src, raw_dests) :: pre), s, ds, post, tp, ca, cb, cc.
      split; [reflexivity|]. split; [rewrite Heq; exact Hpre | auto]. }
    cbn [resolve_loop] in Hrun.
    destruct (resolve_source c raw_src) as [[src_id|] c1] eqn:Es.
    2:{ apply (Hstep c1 resolved). intros items'. cbn [resolve_loop].
        rewrite Es. reflexivity. }
    destruct (resolve_destinations c1 raw_dests []) as [[ids|e] c2] eqn:Ed;
      [|discriminate].
    destruct ids as [|id ids].
    { apply (Hstep c2 resolved). intros items'. cbn [resolve_loop].
      rewrite Es, Ed. reflexivity. }
    destruct (py_int src_id) as [k|e] eqn:Ek; [|discriminate].
    destruct (Hstep c2 (<[k := id :: ids]> resolved)) as [Hl|Hr]; [ | | right; exact Hr].
    { intros items'. cbn [resolve_loop]. rewrite Es, Ed, Ek. reflexivity. }
    destruct (decide (k = src)) as [->|Hne].
    + rewrite lookup_insert_eq in Hl. injection Hl as <-.
      right. split; [discriminate|].
      exists [], raw_src, raw_dests, rest, resolved, c, c1, c2.
      split; [reflexivity|]. split; [reflexivity|].
      split; [eapply resolve_source_identifies; eassumption|].
      split; [|exact Hrun].
      apply resolve_destinations_in_order in Ed as (ids' & -> & Hids).
      exact Hids.
    + rewrite lookup_insert_ne in Hl by exact Hne. auto.
Qed.

End WithClient.

(** C7: in every routing table the resolver returns, the list stored under
    a source id is not empty, and it was stored by an item of the raw
    mappings whose source has that id: it is the list of the ids of that
    item's destinations that resolved, in the order in which the item
    declares them, each resolved in the state the client was in when its
    turn came. *)
Theorem routing_table_entries `{Unicode} {Client : Type} `{Messaging Client}
    (c c' : Client) (raw_mappings : list (raw * list raw))
    (table : gmap Z (list Z)) (src : Z) (dest_ids : list Z) :
  _resolve_mappings c raw_mappings = (Ok table, c') ->
  table !! src = Some dest_ids ->
  dest_ids <> [] /\
  exists pre raw_src raw_dests post table_pre c_a c_b c_c,
    raw_mappings = pre ++ (raw_src, raw_dests) :: post /\
    _resolve_mappings c pre = (Ok table_pre, c_a) /\
    identifies c_a raw_src (Some src) c_b /\
    resolved_in_order c_b raw_dests dest_ids c_c /\
    resolve_loop c_c post (<[src := dest_ids]> table_pre) = (Ok table, c').
Proof.
  intros Hr Hk.
  destruct (resolve_loop_stored _ _ _ _ _ _ _ Hr Hk) as [He|Hstored];
    [|exact Hstored].
  rewrite lookup_empty in He. discriminate.
Qed.

(** The scenario of the specification, after three items that store
    nothing: a source that [int] refuses and whose one destination is not
    found, a source whose lookup times out and a source that is not found.
    Then [@channelA] is found with id 555; of its destinations [-100123] is
    a numeric literal, [@channelB] is not found and [@channelC] is found
    with id 777.  The entry of 555 comes from that item, resolved in the
    state the three earlier items left the client in. *)
Lemma routing_table_entries_witness :
  [-100123; 777] <> [] /\
  exists c_b c_c,
    @identifies excerpt script scripted
      (Script [Found 555; Failed; Found 777] [])
      (RStr (py "@channelA")) (Some 555) c_b /\
    @resolved_in_order excerpt script scripted c_b
      [RStr (py "-100123"); RStr (py "@channelB"); RStr (py "@channelC")]
      [-100123; 777] c_c.
Proof.
  destruct (@routing_table_entries excerpt script scripted
              (Script [Failed; TimeoutError; Failed; Found 555; Failed; Found 777] [])
              (Script [] [])
              [(RStr [178%N], [RStr (py "@x")]);
               (RStr (py "@gone"), [RInt 1]);
               (RStr (py "@nowhere"), [RInt 2]);
               (RStr (py "@channelA"),
                [RStr (py "-100123"); RStr (py "@channelB"); RStr (py "@channelC")])]
              (<[555 := [-100123; 777]]> ∅) 555 [-100123; 777])
    as (Hne & pre & raw_src & raw_dests & post & table_pre & c_a & c_b & c_c
        & Hitems & Hpre & Hsrc & Hdests & _).
  - vm_compute. reflexivity.
  - vm_compute. reflexivity.
  - split; [exact Hne|]. exists c_b, c_c.
    destruct pre as [|i1 [|i2 [|i3 [|i4 pre]]]]; cbn [app] in Hitems.
    + injection Hitems as <- <- <-.
      inversion Hsrc as [|? ? Hn| ? ? ? Hn| |]; vm_compute in Hn; discriminate.
    + injection Hitems as <- <- <- <-.
      vm_compute in Hpre. injection Hpre as <- <-.
      inversion Hsrc as [|? ? Hn| ? ? ? Hn Hg| |];
        [vm_compute in Hn | vm_compute in Hg]; discriminate.
    + injection Hitems as <- <- <- <- <-.
      vm_compute in Hpre. injection Hpre as <- <-.
      inversion Hsrc as [|? ? Hn| ? ? ? Hn Hg| |];
        [vm_compute in Hn | vm_compute in Hg]; discriminate.
    + injection Hitems as <- <- <- <- <- <-.
      vm_compute in Hpre. injection Hpre as <- <-.
      split; [exact Hsrc | exact Hdests].
    + injection Hitems as _ _ _ _ Hitems. destruct pre; discriminate.
Defined.

End ResolverFacts.

(** ** The content filter and the delivery engine *)

Module DeliveryFacts.

(** [needle in haystack] is the substring test. *)
Lemma prefix_of_spec (p s : list N) :
  prefix_of p s = true <-> exists post, s = p ++ post.
Proof.
  revert s. induction p as [|a p IH]; intros s.
  - cbn. split; [eauto | reflexivity].
  - destruct s as [|b s]; cbn.
    + split; [discriminate | intros [post [=]]].
    + rewrite andb_true_iff, N.eqb_eq, IH. split.
      * intros [-> [post ->]]. eauto.
      * intros [post [= -> ->]]. eauto.
Qed.

Lemma contains_spec (haystack needle : list N) :
  contains haystack needle = true <->
  exists pre post, haystack = pre ++ needle ++ post.
Proof.
  induction haystack as [|c rest IH]; cbn [contains];
    rewrite orb_true_iff, prefix_of_spec.
  - split.
    + intros [[post E]|[=]]. exists [], post. exact E.
    + intros (pre & post & E). left. destruct pre; [eauto|discriminate].
  - rewrite IH. split.
    + intros [[post E]|(pre & post & ->)].
      * exists [], post. exact E.
      * exists (c :: pre), post. reflexivity.
    + intros (pre & post & E). destruct pre as [|c' pre].
      * left. eauto.
      * right. injection E as -> ->. eauto.
Qed.

Lemma existsb_map_compose {A B} (f : B -> bool) (g : A -> B) (l : list A) :
  existsb f (List.map g l) = existsb (fun x => f (g x)) l.
Proof. induction l as [|x l IH]; cbn; rewrite ?IH; reflexivity. Qed.

Lemma requests_app (t1 t2 : list effect) :
  requests (t1 ++ t2) = requests t1 ++ requests t2.
Proof.
  induction t1 as [|[r o|q|l] t1 IH]; cbn; rewrite ?IH; reflexivity.
Qed.

Section WithClient.
Context `{Unicode} {Client : Type} `{Messaging Client}.
Implicit Types (bot : MirrorBot) (c : Client) (msg : message).

Lemma requests_after_send bot src_id dest :
  requests (after_send bot src_id dest) = [].
Proof. unfold after_send. destruct (pacing bot); reflexivity. Qed.

Lemma requests_handler dest o : requests (handler dest o) = [].
Proof. destruct o as [|[|secs| |]]; reflexivity. Qed.

(** *** The filter *)

Lemma blank_test msg :
  negb (truthy (message_text msg))
  || strip_is_empty (default [] (message_text msg))
  = forallb is_whitespace (body msg).
Proof.
  unfold body, strip_is_empty.
  destruct (message_text msg) as [[|ch s]|]; reflexivity.
Qed.

Lemma keyword_test (text : list N) (keyword_list : list (list N)) :
  match List.map lower keyword_list with [] => false | _ => true end
  && negb (existsb (contains (lower text)) (List.map lower keyword_list))
  = negb match keyword_list with
         | [] => true
         | _ => existsb (fun k => contains (lower text) (lower k)) keyword_list
         end.
Proof.
  rewrite existsb_map_compose. destruct keyword_list; reflexivity.
Qed.

(** The three guards of [_on_message] are the three rules of [accepts]:
    a rejected message causes no call of the client, an accepted one is
    dispatched with its text. *)
Lemma on_message_filter bot c event keyword_list :
  keywords bot = List.map lower keyword_list ->
  let msg := event_message event in
  if accepts msg keyword_list
  then _on_message bot c event = dispatch bot c event (body msg)
  else (_on_message bot c event).2 = c /\
       requests (_on_message bot c event).1 = [].
Proof.
  intros Hk msg. unfold _on_message, accepts, is_service, has_media.
  fold msg. destruct (action msg) as [a|] eqn:Ea.
  - rewrite bool_decide_eq_true_2 by discriminate. auto.
  - rewrite bool_decide_eq_false_2 by auto.
    rewrite blank_test. fold (body msg).
    destruct (media msg) as [m|] eqn:Em.
    + rewrite (bool_decide_eq_false_2 (Some m = None)) by discriminate.
      rewrite !andb_false_r, Hk, keyword_test.
      destruct keyword_list as [|k ks]; [reflexivity|].
      destruct (existsb _ (k :: ks)); cbn [negb]; auto.
    + rewrite (bool_decide_eq_true_2 (None = None)) by reflexivity.
      rewrite !andb_true_r.
      destruct (forallb is_whitespace (body msg)); [auto|].
      rewrite Hk, keyword_test.
      destruct keyword_list as [|k ks]; [reflexivity|].
      destruct (existsb _ (k :: ks)); cbn [negb]; auto.
Qed.

(** *** The loop over the destinations *)

Lemma deliver_app bot c src_id dests1 dests2 msg text :
  deliver bot c src_id (dests1 ++ dests2) msg text
  = let '(t1, c1) := deliver bot c src_id dests1 msg text in
    let '(t2, c2) := deliver bot c1 src_id dests2 msg text in
    (t1 ++ t2, c2).
Proof.
  revert c. induction dests1 as [|d rest IH]; intros c.
  - cbn [app deliver]. destruct (deliver bot c src_id dests2 msg text).
    reflexivity.
  - cbn [app deliver]. destruct (deliver_to bot c src_id d msg text) as [t1 c1].
    rewrite IH. destruct (deliver bot c1 src_id rest msg text) as [t2 c2].
    destruct (deliver bot c2 src_id dests2 msg text) as [t3 c3].
    rewrite app_assoc. reflexivity.
Qed.

Lemma send_then_log_shape bot c src_id dest r o t c' :
  send_then_log bot c src_id dest r = (o, t, c') ->
  (t = Call r Returned :: after_send bot src_id dest /\ o = Returned) \/
  (exists e, t = [Call r (Raised e)] /\ o = Raised e).
Proof.
  unfold send_then_log. destruct (call c r) as [[|e] c1]; intros [= <- <- <-];
    eauto.
Qed.

(** Every attempt begins with a call addressed to its destination. *)
Lemma try_send_first bot c src_id dest msg text o t c' :
  try_send bot c src_id dest msg text = (o, t, c') ->
  exists r o1 rest, t = Call r o1 :: rest /\ request_dest r = dest.
Proof.
  unfold try_send. destruct (media msg) as [m|].
  - intros E. apply send_then_log_shape in E as [[-> _]|(e & -> & _)]; eauto.
  - destruct (truthy (entities msg)).
    + destruct (call c _) as [[|e] c1].
      * intros [= <- <- <-]. eauto.
      * destruct (send_then_log bot c1 src_id dest _) as [[o2 t2] c2].
        intros [= <- <- <-]. eauto.
    + intros E. apply send_then_log_shape in E as [[-> _]|(e & -> & _)]; eauto.
Qed.

(** An attempt that ends with an exception consists of calls that raised,
    the last of which raised that exception. *)
Lemma try_send_raised bot c src_id dest msg text e t c' :
  try_send bot c src_id dest msg text = (Raised e, t, c') ->
  Forall (fun x => exists r e', x = Call r (Raised e') /\ request_dest r = dest) t /\
  exists t0 r, t = t0 ++ [Call r (Raised e)] /\ request_dest r = dest.
Proof.
  unfold try_send. destruct (media msg) as [m|].
  - intros E. apply send_then_log_shape in E as [[_ [=]]|(e' & -> & [= <-])].
    split; [repeat constructor; eauto|]. exists []. eauto.
  - destruct (truthy (entities msg)).
    + destruct (call c _) as [[|e1] c1]; [discriminate|].
      destruct (send_then_log bot c1 src_id dest _) as [[o2 t2] c2] eqn:E.
      intros [= -> <- <-].
      apply send_then_log_shape in E as [[_ [=]]|(e' & -> & [= <-])].
      split; [repeat constructor; eauto|].
      eexists [_], _. split; reflexivity.
    + intros E. apply send_then_log_shape in E as [[_ [=]]|(e' & -> & [= <-])].
      split; [repeat constructor; eauto|]. exists []. eauto.
Qed.

(** Every destination of the list is attempted, whatever happened to the
    destinations before it. *)
Lemma deliver_attempts_all bot src_id msg text dests :
  forall c d, In d dests ->
    exists r o, In (Call r o) (deliver bot c src_id dests msg text).1
                /\ request_dest r = d.
Proof.
  induction dests as [|dest rest IH]; intros c d; [intros []|].
  cbn [deliver]. unfold deliver_to.
  destruct (try_send bot c src_id dest msg text) as [[o t] c1] eqn:E.
  specialize (IH c1 d).
  destruct (deliver bot c1 src_id rest msg text) as [t2 c2]. cbn [fst] in *.
  intros [<-|Hin].
  - apply try_send_first in E as (r & o1 & tl & -> & Hd).
    exists r, o1. split; [left; reflexivity | assumption].
  - destruct (IH Hin) as (r & o1 & Hr & Hd). exists r, o1.
    split; [|assumption]. apply in_or_app. right. assumption.
Qed.

Lemma deliver_media_requests bot src_id msg text m dests :
  media msg = Some m ->
  forall c,
    requests (deliver bot c src_id dests msg text).1
    = List.map (fun dest => send_file dest m (or_None (Some text))
                              (or_None (entities msg))) dests.
Proof.
  intros Hm. induction dests as [|dest rest IH]; intros c; [reflexivity|].
  cbn [deliver List.map]. unfold deliver_to, try_send. rewrite Hm.
  destruct (send_then_log bot c src_id dest _) as [[o t] c1] eqn:E.
  specialize (IH c1).
  destruct (deliver bot c1 src_id rest msg text) as [t2 c2]. cbn [fst] in *.
  rewrite !requests_app, requests_handler, IH.
  apply send_then_log_shape in E as [[-> _]|(e & -> & _)]; cbn [requests];
    rewrite ?requests_after_send; reflexivity.
Qed.

End WithClient.

(** *** The filter, claim by claim *)

(** C8: a service event is rejected; a message whose body is empty or all
    whitespace and that has no media is rejected, whatever the keywords;
    with a non-empty keyword list a message is rejected when its lowercased
    body contains none of the lowercased keywords as a substring; every
    other message goes on to the delivery loop.  A rejected message causes
    no call of the client. *)
Theorem content_filter_rules `{Unicode} {Client : Type} `{Messaging Client}
    (bot : MirrorBot) (c : Client) (event : new_message)
    (keyword_list : list (list N)) :
  keywords bot = List.map lower keyword_list ->
  let msg := event_message event in
  let rejected :=
    (_on_message bot c event).2 = c /\ requests (_on_message bot c event).1 = [] in
  let keyword_found :=
    exists k pre post, In k keyword_list /\
      lower (body msg) = pre ++ lower k ++ post in
  (action msg <> None -> rejected) /\
  (forallb is_whitespace (body msg) = true -> media msg = None -> rejected) /\
  (keyword_list <> [] -> ~ keyword_found -> rejected) /\
  (action msg = None ->
   forallb is_whitespace (body msg) = false \/ media msg <> None ->
   keyword_list = [] \/ keyword_found ->
   _on_message bot c event = dispatch bot c event (body msg)).
Proof.
  intros Hk msg rejected keyword_found.
  pose proof (on_message_filter bot c event keyword_list Hk) as Hf.
  cbv zeta in Hf. fold msg in Hf.
  assert (Hfound : keyword_list <> [] ->
            (match keyword_list with
             | [] => true
             | _ => existsb (fun k => contains (lower (body msg)) (lower k))
                      keyword_list
             end = true <-> keyword_found)).
  { intros Hne. destruct keyword_list as [|k0 ks]; [congruence|].
    rewrite existsb_exists. unfold keyword_found. split.
    - intros (k & Hin & Hc). apply contains_spec in Hc as (pre & post & E).
      exists k, pre, post. auto.
    - intros (k & pre & post & Hin & E). exists k. split; [assumption|].
      apply contains_spec. eauto. }
  unfold accepts, is_service, has_media in Hf. split; [|split; [|split]].
  - intros Ha. destruct (action msg); [apply Hf | congruence].
  - intros Hb Hm. rewrite Hb, Hm in Hf. destruct (action msg); apply Hf.
  - intros Hne Hnf. destruct (action msg); [apply Hf|].
    destruct (forallb is_whitespace (body msg) && negb _); [apply Hf|].
    destruct (match keyword_list with [] => true | _ => _ end) eqn:E;
      [|apply Hf].
    exfalso. apply Hnf, (Hfound Hne). reflexivity.
  - intros Ha Hb Hkw. rewrite Ha in Hf.
    assert (Hbm : forallb is_whitespace (body msg)
                  && negb match media msg with Some _ => true | None => false end
                  = false).
    { destruct Hb as [->|Hm]; [reflexivity|].
      destruct (media msg); [apply andb_false_r | congruence]. }
    rewrite Hbm in Hf.
    destruct keyword_list as [|k0 ks]; [exact Hf|].
    destruct Hkw as [[=]|Hkw].
    apply Hfound in Hkw; [|discriminate]. rewrite Hkw in Hf. exact Hf.
Qed.

(** The scenario of the specification: with the keyword [sale] the text
    [Big SALE today] goes on to the delivery loop. *)
Lemma content_filter_rules_witness :
  @_on_message excerpt script scripted (@init excerpt (Qmake 2 1) [py "sale"])
    (Script [] []) (text_message (py "Big SALE today") None)
  = @dispatch script scripted (@init excerpt (Qmake 2 1) [py "sale"])
      (Script [] []) (text_message (py "Big SALE today") None)
      (py "Big SALE today").
Proof.
  refine (proj2 (proj2 (proj2
    (@content_filter_rules excerpt script scripted
       (@init excerpt (Qmake 2 1) [py "sale"]) (Script [] [])
       (text_message (py "Big SALE today") None) [py "sale"] _))) _ _ _).
  - reflexivity.
  - reflexivity.
  - left. reflexivity.
  - right. exists (py "sale"), (py "big "), (py " today").
    split; [left|]; reflexivity.
Defined.

(** *** Media messages *)

(** C5, as stated, fails: the entities of a media message are passed to
    [send_file] along with the caption, as [caption_entities]. *)
Lemma media_caption_carries_entities :
  requests
    (@_on_message excerpt script scripted sample_bot (Script [] [])
       (media_message (py "Hello world") (Some [Entity MessageEntityBold 0 5]))).1
  = [send_file 10 7 (Some (py "Hello world")) (Some [Entity MessageEntityBold 0 5]);
     send_file 20 7 (Some (py "Hello world")) (Some [Entity MessageEntityBold 0 5])].
Proof. vm_compute. reflexivity. Qed.

(** C5, amended: for a message that passes the filter and carries media,
    the calls of the client are one [send_file] per destination, in the
    order of the destinations, each with the media, with the text of the
    message as it is for caption ([None] when the text is empty), never
    transcoded, and with the entities of the message as [caption_entities]
    ([None] when there are none). *)
Theorem media_sent_with_plain_caption `{Unicode} {Client : Type}
    `{Messaging Client} (bot : MirrorBot) (c : Client) (event : new_message)
    (keyword_list : list (list N)) (m : N) :
  keywords bot = List.map lower keyword_list ->
  accepts (event_message event) keyword_list = true ->
  media (event_message event) = Some m ->
  requests (_on_message bot c event).1
  = List.map
      (fun dest => send_file dest m
                     (or_None (Some (body (event_message event))))
                     (or_None (entities (event_message event))))
      (default [] (mappings bot !! chat_id event)).
Proof.
  intros Hk Ha Hm.
  pose proof (on_message_filter bot c event keyword_list Hk) as Hf.
  cbv zeta in Hf. rewrite Ha in Hf. rewrite Hf. unfold dispatch.
  destruct (default [] (mappings bot !! chat_id event)) as [|d ds] eqn:Ed;
    [reflexivity|].
  apply deliver_media_requests, Hm.
Qed.

Lemma media_sent_with_plain_caption_witness :
  requests
    (@_on_message excerpt script scripted sample_bot
       (Script [] [Raised OtherException])
       (media_message (py "a <b> c") None)).1
  = [send_file 10 7 (Some (py "a <b> c")) None;
     send_file 20 7 (Some (py "a <b> c")) None].
Proof.
  apply (@media_sent_with_plain_caption excerpt script scripted sample_bot
           (Script [] [Raised OtherException])
           (media_message (py "a <b> c") None) [] 7%N); reflexivity.
Defined.

(** *** Rate limits *)

(** C9: for a text-only message with entities, whatever exception the
    markup send raises, a flood wait included, the plain text is sent to the
    same destination straight away; what follows depends on that second
    call alone, and the flood-wait handler (its log line, its sleep) runs
    exactly when the second call raises a flood wait. *)
Theorem markup_failure_falls_back_to_plain `{Unicode} {Client : Type}
    `{Messaging Client} (bot : MirrorBot) (c c1 c2 : Client) (src_id dest : Z)
    (msg : message) (text : list N) (ents : list entity) (e : exn) (o2 : outcome) :
  media msg = None ->
  entities msg = Some ents -> ents <> [] ->
  let markup :=
    send_message dest (entities_to_html text ents) (Some (py "html")) in
  let plain := send_message dest text None in
  call c markup = (Raised e, c1) ->
  call c1 plain = (o2, c2) ->
  deliver_to bot c src_id dest msg text
  = (Call markup (Raised e) :: Call plain o2
       :: match o2 with
          | Returned => after_send bot src_id dest
          | Raised _ => handler dest o2
          end, c2) /\
  ((exists wait, In (Log (HitFloodWait dest wait))
                   (deliver_to bot c src_id dest msg text).1) <->
   exists seconds, o2 = Raised (FloodWaitError seconds)).
Proof.
  intros Hm He Hne markup plain H1 H2.
  assert (Hd : deliver_to bot c src_id dest msg text
               = (Call markup (Raised e) :: Call plain o2
                    :: match o2 with
                       | Returned => after_send bot src_id dest
                       | Raised _ => handler dest o2
                       end, c2)).
  { unfold deliver_to, try_send. rewrite Hm, He.
    destruct ents as [|ent ents]; [congruence|].
    cbn [truthy default from_option id].
    fold markup. rewrite H1. unfold send_then_log. fold plain. rewrite H2.
    destruct o2 as [|e2]; cbn [app handler]; [rewrite app_nil_r|]; reflexivity. }
  split; [exact Hd|]. rewrite Hd. cbn [fst]. split.
  - intros (wait & [[=]|[[=]|Hin]]). destruct o2 as [|e2].
    + unfold after_send in Hin. destruct Hin as [[=]|Hin].
      destruct (pacing bot); [destruct Hin as [[=]|[]] | destruct Hin].
    + destruct e2 as [|seconds| |]; [|eauto| |];
        destruct Hin as [[=]|[]].
  - intros (seconds & ->). exists (default 60 seconds).
    right. right. left. reflexivity.
Qed.

(** A flood wait of 30 seconds on the markup send: the plain text follows
    at once and is mirrored; nothing sleeps 35 seconds. *)
Lemma markup_failure_falls_back_to_plain_witness :
  @deliver_to script scripted sample_bot
    (Script [] [Raised (FloodWaitError (Some 30))]) 1 10
    (Message None (Some (py "Hello world")) None
       (Some [Entity MessageEntityBold 0 5]))
    (py "Hello world")
  = ([Call (send_message 10 (py "<b>Hello</b> world") (Some (py "html")))
        (Raised (FloodWaitError (Some 30)));
      Call (send_message 10 (py "Hello world") None) Returned;
      Log (Mirrored 1 10); Sleep (Qmake 2 1)],
     Script [] []).
Proof.
  refine (proj1 (@markup_failure_falls_back_to_plain excerpt script scripted
    sample_bot (Script [] [Raised (FloodWaitError (Some 30))]) (Script [] [])
    (Script [] []) 1 10
    (Message None (Some (py "Hello world")) None
       (Some [Entity MessageEntityBold 0 5]))
    (py "Hello world") [Entity MessageEntityBold 0 5]
    (FloodWaitError (Some 30)) Returned _ _ _ _ _)); try reflexivity.
  discriminate.
Defined.

(** C1, as stated, fails: after the flood wait on destination 10 and the
    sleep of 35 seconds, the loop goes on and sends to destination 20. *)
Lemma rate_limit_does_not_end_the_pass :
  @_on_message excerpt script scripted sample_bot
    (Script [] [Raised (FloodWaitError (Some 30))])
    (text_message (py "hi") None)
  = ([Call (send_message 10 (py "hi") None) (Raised (FloodWaitError (Some 30)));
      Log (HitFloodWait 10 30); Sleep (Qmake 35 1);
      Call (send_message 20 (py "hi") None) Returned;
      Log (Mirrored 1 20); Sleep (Qmake 2 1)],
     Script [] []).
Proof. vm_compute. reflexivity. Qed.

(** C1, amended: when the attempt at destination D ends with a flood wait
    carrying W seconds, the engine logs it and sleeps W + 5 seconds; the
    attempt ended on the call that raised the signal, so that nothing more
    is sent to D for this entry of the list and D is not logged as
    mirrored; then the loop goes on with the destinations after D, every
    one of which is attempted. *)
Theorem rate_limit_pauses_and_continues `{Unicode} {Client : Type}
    `{Messaging Client} (bot : MirrorBot) (c c1 c2 c3 : Client) (src_id : Z)
    (pre post : list Z) (D W : Z) (msg : message) (text : list N)
    (t_pre t_D t_post : list effect) :
  deliver bot c src_id pre msg text = (t_pre, c1) ->
  try_send bot c1 src_id D msg text
  = (Raised (FloodWaitError (Some W)), t_D, c2) ->
  deliver bot c2 src_id post msg text = (t_post, c3) ->
  deliver bot c src_id (pre ++ D :: post) msg text
  = (t_pre
     ++ (t_D ++ [Log (HitFloodWait D W); Sleep (inject_Z (W + 5))])
     ++ t_post, c3) /\
  (exists t0 r, t_D = t0 ++ [Call r (Raised (FloodWaitError (Some W)))]
                /\ request_dest r = D) /\
  ~ In (Log (Mirrored src_id D)) t_D /\
  (forall d, In d post ->
     exists r o, In (Call r o) t_post /\ request_dest r = d).
Proof.
  intros Hpre HD Hpost. split; [|split; [|split]].
  - rewrite deliver_app, Hpre. cbn [deliver]. unfold deliver_to.
    rewrite HD, Hpost. reflexivity.
  - apply try_send_raised in HD as [_ Hlast]. exact Hlast.
  - apply try_send_raised in HD as [Hall _]. intros Hin.
    rewrite List.Forall_forall in Hall.
    destruct (Hall _ Hin) as (r & e' & [=] & _).
  - intros d Hin.
    destruct (deliver_attempts_all bot src_id msg text post c2 d Hin)
      as (r & o & Hr & Hd).
    rewrite Hpost in Hr. eauto.
Qed.

Lemma rate_limit_pauses_and_continues_witness :
  @deliver script scripted sample_bot
    (Script [] [Raised (FloodWaitError (Some 30))]) 1 ([] ++ 10 :: [20])
    (Message None (Some (py "hi")) None None) (py "hi")
  = ([]
     ++ ([Call (send_message 10 (py "hi") None) (Raised (FloodWaitError (Some 30)))]
         ++ [Log (HitFloodWait 10 30); Sleep (inject_Z (30 + 5))])
     ++ [Call (send_message 20 (py "hi") None) Returned;
         Log (Mirrored 1 20); Sleep (Qmake 2 1)],
     Script [] []).
Proof.
  refine (proj1 (@rate_limit_pauses_and_continues excerpt script scripted
    sample_bot (Script [] [Raised (FloodWaitError (Some 30))])
    (Script [] [Raised (FloodWaitError (Some 30))]) (Script [] []) (Script [] [])
    1 [] [20] 10 30 (Message None (Some (py "hi")) None None) (py "hi")
    [] _ _ _ _ _)); reflexivity.
Defined.

End DeliveryFacts.

(** * Further properties of the code *)

(** ** The transcoder as a function of its inserts *)

Module TranscoderMore.
Import TranscoderFacts.

Local Abbreviation esc := (fun (_ : nat) (c : N) => Html.escape [c]).

Lemma build_inserts_app entities1 entities2 :
  build_inserts (entities1 ++ entities2)
  = build_inserts entities1 ++ build_inserts entities2.
Proof.
  induction entities1 as [|ent rest IH]; [reflexivity|].
  cbn [app build_inserts]. destruct (tags (cls ent)) as [[s t]|];
    rewrite IH; reflexivity.
Qed.

(** The output string depends on the inserts only through what is scheduled,
    joined, at each of the positions [0 .. len(text)]. *)
Lemma walk_concat_ext text (inserts1 inserts2 : list (Z * list N)) :
  (forall i : nat, (i <= length text)%nat ->
     concat (scheduled_at (Z.of_nat i) inserts1)
     = concat (scheduled_at (Z.of_nat i) inserts2)) ->
  concat (walk esc text (inserts_by_pos inserts1))
  = concat (walk esc text (inserts_by_pos inserts2)).
Proof.
  intros Hsame. unfold walk.
  assert (Hl : forall i, In i (seq 0 (S (length text))) -> (i <= length text)%nat)
    by (intros i Hi; apply in_seq in Hi; lia).
  induction (seq 0 (S (length text))) as [|i l IH]; [reflexivity|].
  cbn [flat_map]. rewrite !concat_app, IH by (intros j Hj; apply Hl; right; exact Hj).
  f_equal. rewrite !emit_at_scheduled, !concat_app.
  rewrite Hsame by (apply Hl; left; reflexivity). reflexivity.
Qed.

(** Also with no entity at all the result is the joined list [out]. *)
Lemma entities_to_html_pieces text entities :
  entities_to_html text entities = concat (out_pieces text entities).
Proof.
  rewrite <- render_labelled, render_labelled_out. reflexivity.
Qed.

(** An entity none of whose tags shows at a visited position can be taken
    out of the list. *)
Lemma drop_silent_entity text entities1 ent entities2 :
  (forall i : nat, (i <= length text)%nat ->
     concat (scheduled_at (Z.of_nat i) (build_inserts [ent])) = []) ->
  entities_to_html text (entities1 ++ ent :: entities2)
  = entities_to_html text (entities1 ++ entities2).
Proof.
  intros Hsilent. rewrite !entities_to_html_pieces. unfold out_pieces.
  apply walk_concat_ext. intros i Hi.
  change (ent :: entities2) with ([ent] ++ entities2).
  rewrite !build_inserts_app, !scheduled_at_app, !concat_app.
  rewrite (Hsilent i Hi). reflexivity.
Qed.

(** One stretch of the walk: over the characters [mid] of the text, when
    nothing is scheduled strictly inside the stretch. *)
Lemma walk_stretch (inserts : list (Z * list N)) mid :
  forall pre suf,
    (forall i : nat, (length pre < i < length pre + length mid)%nat ->
       concat (scheduled_at (Z.of_nat i) inserts) = []) ->
    concat (flat_map (emit_at esc (pre ++ mid ++ suf) (inserts_by_pos inserts))
              (seq (length pre) (length mid)))
    = match mid with
      | [] => []
      | _ => concat (scheduled_at (Z.of_nat (length pre)) inserts)
             ++ Html.escape mid
      end.
Proof.
  induction mid as [|c mid IH]; intros pre suf Hin; [reflexivity|].
  cbn [length seq flat_map]. rewrite concat_app, emit_at_scheduled, concat_app.
  destruct ((pre ++ (c :: mid) ++ suf) !! length pre) as [c'|] eqn:E;
    cbn [app] in E; rewrite list_lookup_middle in E by reflexivity;
    [|discriminate].
  injection E as <-. rewrite <- app_assoc. f_equal.
  cbn [concat]. rewrite app_nil_r.
  specialize (IH (pre ++ [c]) suf).
  rewrite length_app, Nat.add_1_r, <- !app_assoc in IH. cbn [app] in *.
  rewrite IH by (intros i Hi; apply Hin; cbn [length]; lia).
  rewrite HtmlFacts.escape_cons. cbn [Html.escape flat_map]. rewrite app_nil_r.
  f_equal. destruct mid as [|c' mid']; [reflexivity|].
  rewrite Hin by (cbn [length]; lia). reflexivity.
Qed.

(** The whole walk when tags are scheduled at two positions at most, the
    two ends of a span of the text. *)
Lemma walk_two_positions (inserts : list (Z * list N)) pre span post :
  (forall i : nat, i <> length pre -> i <> (length pre + length span)%nat ->
     concat (scheduled_at (Z.of_nat i) inserts) = []) ->
  concat (walk esc (pre ++ span ++ post) (inserts_by_pos inserts))
  = Html.escape pre
    ++ concat (scheduled_at (Z.of_nat (length pre)) inserts)
    ++ match span with
       | [] => []
       | _ => Html.escape span
              ++ concat (scheduled_at (Z.of_nat (length pre + length span)) inserts)
       end
    ++ Html.escape post.
Proof.
  intros Hout. unfold walk. rewrite !length_app.
  replace (S (length pre + (length span + length post)))
    with (length pre + (length span + (length post + 1)))%nat by lia.
  rewrite !seq_app, !flat_map_app, !concat_app. cbn [Nat.add].
  pose proof (walk_stretch inserts pre [] (span ++ post)) as H1.
  pose proof (walk_stretch inserts span pre post) as H2.
  pose proof (walk_stretch inserts post (pre ++ span) []) as H3.
  cbn [app length] in H1. rewrite length_app, <- app_assoc, app_nil_r in H3.
  rewrite H1, H2, H3 by (intros i Hi; apply Hout; lia). clear H1 H2 H3.
  cbn [seq flat_map concat]. rewrite !app_nil_r, emit_at_scheduled.
  rewrite (lookup_ge_None_2 (pre ++ span ++ post))
    by (rewrite !length_app; lia).
  rewrite app_nil_r.
  assert (Hpre : match pre with
                 | [] => []
                 | _ => concat (scheduled_at (Z.of_nat 0) inserts) ++ Html.escape pre
                 end = Html.escape pre).
  { destruct pre as [|c pre']; [reflexivity|].
    rewrite Hout by (cbn [length]; lia). reflexivity. }
  rewrite Hpre. rewrite <- ?app_assoc. f_equal.
  clear Hpre.
  destruct span as [|c span'], post as [|c' post']; cbn [length app] in *;
    rewrite ?Nat.add_0_r, ?app_nil_r; try reflexivity.
  - rewrite (Hout (length pre + S (length post'))%nat) by lia.
    rewrite app_nil_r. reflexivity.
  - rewrite <- ?app_assoc. reflexivity.
  - rewrite (Hout (length pre + S (length span') + S (length post'))%nat) by lia.
    rewrite app_nil_r, <- ?app_assoc. reflexivity.
Qed.

Lemma scheduled_pair i (p q : Z) (s t : list N) :
  concat (scheduled_at i [(p, s); (q, t)])
  = (if p =? i then s else []) ++ (if q =? i then t else []).
Proof.
  cbn [scheduled_at]. destruct (p =? i), (q =? i); cbn [concat];
    rewrite ?app_nil_r; reflexivity.
Qed.

Lemma build_inserts_one ent :
  build_inserts [ent]
  = match tags (cls ent) with
    | Some (s, t) => [(offset ent, s); (offset ent + ent_length ent, t)]
    | None => []
    end.
Proof. cbn. destruct (tags (cls ent)) as [[s t]|]; reflexivity. Qed.

(** X1: an entity of a class the transcoder does not know changes nothing:
    the output is that of the list without it. *)
Theorem unsupported_entity_ignored (text : list N)
    (entities1 entities2 : list entity) (off ln : Z) :
  entities_to_html text (entities1 ++ Entity MessageEntityOther off ln :: entities2)
  = entities_to_html text (entities1 ++ entities2).
Proof. apply drop_silent_entity. intros i _. reflexivity. Qed.

(** X2: a mention whose [user_id] and [user.id] are both missing or zero
    gets two empty tags and changes nothing in the output. *)
Theorem mention_without_user_id_ignored (text : list N)
    (entities1 entities2 : list entity) (c : entity_class)
    (u v : option Z) (off ln : Z) :
  c = MessageEntityMentionName u v \/ c = MessageEntityTextMention u v ->
  truthy_int (py_or u v) = false ->
  entities_to_html text (entities1 ++ Entity c off ln :: entities2)
  = entities_to_html text (entities1 ++ entities2).
Proof.
  intros Hc Hu. apply drop_silent_entity. intros i _.
  assert (Ht : tags c = Some ([], [])).
  { destruct Hc as [->| ->]; cbn [tags]; unfold mention_tags; rewrite Hu;
      destruct (py_or u v); reflexivity. }
  rewrite build_inserts_one. cbn [cls]. rewrite Ht, scheduled_pair.
  destruct (_ =? _), (_ =? _); reflexivity.
Qed.

Lemma mention_without_user_id_ignored_witness :
  entities_to_html (py "hi bob")
    ([Entity MessageEntityBold 0 2]
     ++ Entity (MessageEntityMentionName (Some 0) None) 3 3 :: [])
  = entities_to_html (py "hi bob") ([Entity MessageEntityBold 0 2] ++ []).
Proof.
  apply (mention_without_user_id_ignored (py "hi bob")
           [Entity MessageEntityBold 0 2] []
           (MessageEntityMentionName (Some 0) None) (Some 0) None 3 3).
  - left. reflexivity.
  - reflexivity.
Defined.

(** X3: an entity both of whose ends lie outside the positions
    [0 .. len(text)] changes nothing in the output. *)
Theorem entity_outside_text_ignored (text : list N)
    (entities1 entities2 : list entity) (ent : entity) :
  offset ent < 0 \/ Z.of_nat (length text) < offset ent ->
  offset ent + ent_length ent < 0
  \/ Z.of_nat (length text) < offset ent + ent_length ent ->
  entities_to_html text (entities1 ++ ent :: entities2)
  = entities_to_html text (entities1 ++ entities2).
Proof.
  intros Hstart Hend. apply drop_silent_entity. intros i Hi.
  rewrite build_inserts_one. destruct (tags (cls ent)) as [[s t]|];
    [|reflexivity].
  rewrite scheduled_pair.
  destruct (Z.eqb_spec (offset ent) (Z.of_nat i)); [lia|].
  destruct (Z.eqb_spec (offset ent + ent_length ent) (Z.of_nat i)); [lia|].
  reflexivity.
Qed.

Lemma entity_outside_text_ignored_witness :
  entities_to_html (py "ab") ([] ++ Entity MessageEntityBold 5 2 :: [])
  = entities_to_html (py "ab") ([] ++ []).
Proof.
  apply (entity_outside_text_ignored (py "ab") [] []
           (Entity MessageEntityBold 5 2)); cbn; lia.
Defined.

(** X4: one annotation of a supported class over a span of the text: the
    output is the escaped text before the span, the opening tag, the escaped
    span, the closing tag, the escaped text after the span. *)
Theorem single_annotation_wraps_span (pre span post : list N)
    (c : entity_class) (s t : list N) :
  tags c = Some (s, t) ->
  entities_to_html (pre ++ span ++ post)
    [Entity c (Z.of_nat (length pre)) (Z.of_nat (length span))]
  = Html.escape pre ++ s ++ Html.escape span ++ t ++ Html.escape post.
Proof.
  intros Ht. rewrite entities_to_html_pieces. unfold out_pieces.
  rewrite build_inserts_one. cbn [cls offset ent_length]. rewrite Ht.
  rewrite walk_two_positions.
  - rewrite !scheduled_pair. rewrite Z.eqb_refl.
    replace (Z.of_nat (length pre) + Z.of_nat (length span))
      with (Z.of_nat (length pre + length span)) by lia.
    rewrite Z.eqb_refl. destruct span as [|ch span'].
    + cbn [length]. rewrite Nat.add_0_r, Z.eqb_refl. cbn [Html.escape flat_map app].
      rewrite <- app_assoc. reflexivity.
    + destruct (Z.eqb_spec (Z.of_nat (length pre + length (ch :: span')))
                  (Z.of_nat (length pre))) as [E|_]; [cbn [length] in E; lia|].
      destruct (Z.eqb_spec (Z.of_nat (length pre))
                  (Z.of_nat (length pre + length (ch :: span')))) as [E|_];
        [cbn [length] in E; lia|].
      rewrite app_nil_r. cbn [app]. rewrite <- !app_assoc. reflexivity.
  - intros i Hp Hq. rewrite scheduled_pair.
    destruct (Z.eqb_spec (Z.of_nat (length pre)) (Z.of_nat i)); [lia|].
    destruct (Z.eqb_spec (Z.of_nat (length pre) + Z.of_nat (length span))
                (Z.of_nat i)); [lia|].
    reflexivity.
Qed.

(** The scenario of the specification: bold over the first five characters
    of [Hello world]. *)
Lemma single_annotation_wraps_span_witness :
  entities_to_html ([] ++ py "Hello" ++ py " world")
    [Entity MessageEntityBold (Z.of_nat (length (@nil N)))
       (Z.of_nat (length (py "Hello")))]
  = Html.escape [] ++ py "<b>" ++ Html.escape (py "Hello") ++ py "</b>"
    ++ Html.escape (py " world").
Proof.
  apply (single_annotation_wraps_span [] (py "Hello") (py " world")
           MessageEntityBold (py "<b>") (py "</b>")).
  reflexivity.
Defined.

Lemma scheduled_same_span (p ln : Z) (cs : list entity_class) i :
  ln <> 0 ->
  concat (scheduled_at i (build_inserts (List.map (fun c => Entity c p ln) cs)))
  = (if p =? i then concat (omap tags cs).*1 else [])
    ++ (if p + ln =? i then concat (omap tags cs).*2 else []).
Proof.
  intros Hln. induction cs as [|c cs IH].
  - cbn. destruct (p =? i), (p + ln =? i); reflexivity.
  - cbn [List.map build_inserts cls offset ent_length omap list_omap].
    destruct (tags c) as [[s t]|]; [|exact IH].
    cbn [scheduled_at fmap list_fmap fst snd concat].
    destruct (Z.eqb_spec p i), (Z.eqb_spec (p + ln) i); [lia| | |];
      cbn [concat]; rewrite IH; rewrite ?app_nil_r, <- ?app_assoc;
      reflexivity.
Qed.

(** X5: several annotations over one and the same non-empty span: the
    opening tags come out in the order of the annotations, and so do the
    closing tags, which are not reversed; unsupported classes leave no
    trace. *)
Theorem same_span_tags_in_declaration_order (pre span post : list N)
    (cs : list entity_class) :
  span <> [] ->
  entities_to_html (pre ++ span ++ post)
    (List.map (fun c => Entity c (Z.of_nat (length pre)) (Z.of_nat (length span))) cs)
  = Html.escape pre ++ concat (omap tags cs).*1
    ++ Html.escape span ++ concat (omap tags cs).*2
    ++ Html.escape post.
Proof.
  intros Hne. rewrite entities_to_html_pieces. unfold out_pieces.
  rewrite walk_two_positions.
  - rewrite !scheduled_same_span by (destruct span; [congruence | cbn; lia]).
    rewrite Z.eqb_refl.
    replace (Z.of_nat (length pre) + Z.of_nat (length span))
      with (Z.of_nat (length pre + length span)) by lia.
    rewrite Z.eqb_refl. destruct span as [|ch span']; [congruence|].
    destruct (Z.eqb_spec (Z.of_nat (length pre + length (ch :: span')))
                (Z.of_nat (length pre))) as [E|_]; [cbn [length] in E; lia|].
    destruct (Z.eqb_spec (Z.of_nat (length pre))
                (Z.of_nat (length pre + length (ch :: span')))) as [E|_];
      [cbn [length] in E; lia|].
    rewrite app_nil_r. cbn [app]. rewrite <- !app_assoc. reflexivity.
  - intros i Hp Hq.
    rewrite scheduled_same_span by (destruct span; [congruence | cbn; lia]).
    destruct (Z.eqb_spec (Z.of_nat (length pre)) (Z.of_nat i)); [lia|].
    destruct (Z.eqb_spec (Z.of_nat (length pre) + Z.of_nat (length span))
                (Z.of_nat i)); [lia|].
    reflexivity.
Qed.

(** Bold and italic over the same two characters. *)
Lemma same_span_tags_in_declaration_order_witness :
  entities_to_html ([] ++ py "hi" ++ py "!")
    (List.map (fun c => Entity c (Z.of_nat (length (@nil N)))
                          (Z.of_nat (length (py "hi"))))
       [MessageEntityBold; MessageEntityItalic])
  = Html.escape [] ++ concat (omap tags [MessageEntityBold; MessageEntityItalic]).*1
    ++ Html.escape (py "hi")
    ++ concat (omap tags [MessageEntityBold; MessageEntityItalic]).*2
    ++ Html.escape (py "!").
Proof.
  apply (same_span_tags_in_declaration_order [] (py "hi") (py "!")
           [MessageEntityBold; MessageEntityItalic]).
  discriminate.
Defined.

Lemma escape_char_no_markup c :
  Forall (fun x => x <> 60%N /\ x <> 62%N /\ x <> 34%N /\ x <> 39%N)
    (Html.escape_char c).
Proof.
  unfold Html.escape_char.
  destruct (N.eqb_spec c 38); [repeat constructor; discriminate|].
  destruct (N.eqb_spec c 60); [repeat constructor; discriminate|].
  destruct (N.eqb_spec c 62); [repeat constructor; discriminate|].
  destruct (N.eqb_spec c 34); [repeat constructor; discriminate|].
  destruct (N.eqb_spec c 39); [repeat constructor; discriminate|].
  repeat constructor; assumption.
Qed.

Lemma escape_no_markup (s : list N) :
  Forall (fun x => x <> 60%N /\ x <> 62%N /\ x <> 34%N /\ x <> 39%N)
    (Html.escape s).
Proof.
  induction s as [|c s IH]; [constructor|].
  rewrite HtmlFacts.escape_cons. apply Forall_app. split; [|exact IH].
  apply escape_char_no_markup.
Qed.

(** X6: without annotations the output holds none of the characters
    [<], [>], double quote and single quote, whatever the text. *)
Theorem plain_output_has_no_markup_characters (text : list N) :
  Forall (fun x => x <> 60%N /\ x <> 62%N /\ x <> 34%N /\ x <> 39%N)
    (entities_to_html text []).
Proof.
  cbn [entities_to_html]. rewrite List.Forall_forall. intros x Hx.
  pose proof (escape_no_markup text) as Hall.
  rewrite List.Forall_forall in Hall. apply Hall, Hx.
Qed.

(** X24: the URL of a [MessageEntityTextUrl] cannot leave its attribute:
    the opening tag is [<a href=], a double quote, the escaped URL, a double
    quote and [>], and the escaped URL holds no double quote, no single
    quote and no angle bracket, whatever the URL. *)
Theorem text_url_stays_inside_href (url : list N) :
  exists href,
    tags (MessageEntityTextUrl url)
    = Some (py "<a href=" ++ dquote ++ href ++ dquote ++ py ">", py "</a>") /\
    href = Html.escape url /\
    Forall (fun x => x <> 60%N /\ x <> 62%N /\ x <> 34%N /\ x <> 39%N) href.
Proof.
  exists (Html.escape url). split; [reflexivity|]. split; [reflexivity|].
  apply escape_no_markup.
Qed.

End TranscoderMore.

(** ** More on the identifier normaliser *)

Module NormalizerMore.
Import NormalizerFacts.

Section WithUnicode.
Context `{Unicode}.

Lemma digits_value_none (s : list N) :
  forall acc,
    digits_value acc s = None <-> exists c, In c s /\ decimal_value c = None.
Proof.
  induction s as [|c s IH]; intros acc; cbn [digits_value].
  - split; [discriminate | intros (c & [] & _)].
  - destruct (decimal_value c) as [v|] eqn:E.
    + rewrite IH. split.
      * intros (c' & Hin & Hn). exists c'. split; [right|]; assumption.
      * intros (c' & [<-|Hin] & Hn); [congruence|]. eauto.
    + split; [|reflexivity]. intros _. exists c. split; [left|]; auto.
Qed.

Lemma forallb_isdigit_In (s : list N) c :
  forallb isdigit_char s = true -> In c s -> isdigit_char c = true.
Proof. rewrite forallb_forall. auto. Qed.

Lemma filter_all_digits (ds : list N) :
  forallb isdigit_char ds = true -> List.filter isdigit_char ds = ds.
Proof.
  induction ds as [|c ds IH]; [reflexivity|]. cbn [forallb List.filter].
  intros Hall. apply andb_prop in Hall as [Hc Hds]. rewrite Hc, IH by exact Hds.
  reflexivity.
Qed.

Lemma within_limit_false (ds : list N) :
  within_limit ds = false <->
  max_str_digits <> O /\ (max_str_digits < length ds)%nat.
Proof.
  unfold within_limit. rewrite orb_false_iff, Nat.eqb_neq, Nat.leb_gt.
  reflexivity.
Qed.

(** A string that looks numeric is a non-empty run of digit characters,
    with or without a minus sign before it, and [int] is given that run. *)
Lemma numeric_looking_digits (s : list N) :
  isdigit_char 45 = false ->
  numeric_looking s = true ->
  exists ds sign,
    ds <> [] /\ forallb isdigit_char ds = true /\
    List.filter isdigit_char s = ds /\
    (forall c, In c ds -> In c s) /\
    int_of_str s
    = if within_limit ds
      then (if sign : bool then Z.opp else id) <$> digits_value 0 ds
      else None.
Proof.
  intros Hminus Hnum. unfold numeric_looking in Hnum.
  destruct s as [|c s]; [discriminate|]. cbn [int_of_str].
  destruct (N.eqb_spec c 45) as [->|Hc].
  - assert (Hs : isdigit s = true).
    { apply orb_prop in Hnum as [Hd|Hd].
      - cbn [isdigit forallb] in Hd. rewrite Hminus in Hd. discriminate.
      - apply andb_prop in Hd as [_ Hd]. exact Hd. }
    destruct s as [|c' s']; [discriminate|]. cbn [isdigit] in Hs.
    exists (c' :: s'), true. split; [discriminate|]. split; [exact Hs|].
    split; [|split; [intros x Hx; right; exact Hx | reflexivity]].
    set (ds := c' :: s') in *. cbn [List.filter]. rewrite Hminus.
    apply filter_all_digits, Hs.
  - assert (Hs : forallb isdigit_char (c :: s) = true).
    { apply orb_prop in Hnum as [Hd|Hd]; [exact Hd|].
      apply andb_prop in Hd as [Hd _]. cbn in Hd.
      apply N.eqb_eq in Hd. congruence. }
    exists (c :: s), false. split; [discriminate|]. split; [exact Hs|].
    split; [apply filter_all_digits, Hs|]. split; [auto|].
    destruct (within_limit (c :: s)); [|reflexivity].
    destruct (digits_value 0 (c :: s)); reflexivity.
Qed.

(** [int] refuses a string that looks numeric exactly when one of its digit
    characters is not a decimal digit, or when it has more digits than the
    limit. *)
Lemma int_of_numeric_looking (s : list N) :
  isdigit_char 45 = false ->
  numeric_looking s = true ->
  (int_of_str s = None <->
   (exists c, In c s /\ isdigit_char c = true /\ decimal_value c = None) \/
   (max_str_digits <> O /\
    (max_str_digits < length (List.filter isdigit_char s))%nat)).
Proof.
  intros Hminus Hnum.
  destruct (numeric_looking_digits s Hminus Hnum)
    as (ds & sign & Hne & Hall & Hf & Hin & ->).
  rewrite Hf. destruct (within_limit ds) eqn:Hl.
  - assert (Hno : ~ (max_str_digits <> O /\ (max_str_digits < length ds)%nat)).
    { intros Hlim. apply within_limit_false in Hlim. congruence. }
    destruct (digits_value 0 ds) as [v|] eqn:E.
    + split; [destruct sign; discriminate|]. intros [(x & Hx & Hd & Hn)|Hlim];
        [|contradiction].
      assert (In x ds).
      { rewrite <- Hf. apply filter_In. auto. }
      assert (digits_value 0 ds = None) by (apply digits_value_none; eauto).
      congruence.
    + split; [|destruct sign; reflexivity]. intros _. left.
      apply digits_value_none in E as (x & Hx & Hn).
      exists x. split; [apply Hin, Hx|]. split; [|exact Hn].
      apply (forallb_isdigit_In _ _ Hall Hx).
  - split; [|reflexivity]. intros _. right. apply within_limit_false, Hl.
Qed.

End WithUnicode.

(** X7: granted that the minus sign is not a digit, [normalize_id] raises on
    a string exactly when the string looks numeric to [isdigit] and either
    holds a digit character that is not a decimal digit or has more digit
    characters than the interpreter's limit for [int]. *)
Theorem normalize_id_raises_iff_non_decimal_digit `{Unicode} (s : list N) :
  isdigit_char 45 = false ->
  ((exists e, normalize_id (RStr s) = Raise e) <->
   numeric_looking s = true /\
   ((exists c, In c s /\ isdigit_char c = true /\ decimal_value c = None) \/
    (max_str_digits <> O /\
     (max_str_digits < length (List.filter isdigit_char s))%nat))).
Proof.
  intros Hminus. split.
  - intros (e & He). apply normalize_id_raises in He
      as (s' & [= <-] & Hnum & Hint & _).
    split; [exact Hnum|]. apply int_of_numeric_looking; assumption.
  - intros (Hnum & Hc). exists ValueError. apply normalize_id_raises.
    exists s. repeat split; try assumption.
    apply int_of_numeric_looking; assumption.
Qed.

(** Both ways of raising: a superscript among the digits, and 4301 digits
    under the default limit of 4300. *)
Lemma normalize_id_raises_iff_non_decimal_digit_witness :
  (exists e, @normalize_id excerpt (RStr (py "12" ++ [179%N])) = Raise e) /\
  (exists e, @normalize_id excerpt (RStr (repeat 49%N 4301)) = Raise e) /\
  ~ (exists e, @normalize_id excerpt (RStr (repeat 49%N 4300)) = Raise e).
Proof.
  split; [|split].
  - apply (@normalize_id_raises_iff_non_decimal_digit excerpt (py "12" ++ [179%N]));
      [reflexivity|].
    split; [reflexivity|]. left. exists 179%N.
    split; [right; right; left; reflexivity|]. split; reflexivity.
  - apply (@normalize_id_raises_iff_non_decimal_digit excerpt (repeat 49%N 4301));
      [reflexivity|].
    split; [vm_compute; reflexivity|]. right. split; [discriminate|].
    apply Nat.ltb_lt. vm_compute. reflexivity.
  - intros Hraise.
    pose proof (proj1 (@normalize_id_raises_iff_non_decimal_digit excerpt
                         (repeat 49%N 4300) eq_refl) Hraise)
      as [_ [(c & Hin & _ & Hn)|[_ Hlt]]].
    + apply repeat_spec in Hin. subst c. vm_compute in Hn. discriminate.
    + apply (proj2 (Nat.ltb_lt _ _)) in Hlt. vm_compute in Hlt. discriminate.
Defined.

(** X8: normalising is idempotent: what [normalize_id] returns, it returns
    unchanged when given it again. *)
Theorem normalize_id_idempotent `{Unicode} (value v : raw) :
  normalize_id value = Ok v -> normalize_id v = Ok v.
Proof.
  intros Hv. apply normalize_id_returns in Hv as [[z ->]|(s & -> & -> & Hn)].
  - reflexivity.
  - apply normalize_id_symbolic, Hn.
Qed.

Lemma normalize_id_idempotent_witness :
  @normalize_id excerpt (RInt (-100123)) = Ok (RInt (-100123)).
Proof.
  apply (@normalize_id_idempotent excerpt (RStr (py "-100123")) (RInt (-100123))).
  vm_compute. reflexivity.
Defined.

Section Decimal.
Context `{Unicode}.
Hypothesis ascii_digits :
  forall c : N, (48 <= c <= 57)%N -> decimal_value c = Some (Z.of_N c - 48).

Lemma digits_value_uint_acc (d : Decimal.uint) :
  forall acc : positive,
    digits_value (Z.pos acc) (py (NilEmpty.string_of_uint d))
    = Some (Z.pos (Pos.of_uint_acc d acc)).
Proof.
  induction d; intros acc; [cbn; reflexivity|..];
    cbn [NilEmpty.string_of_uint Pos.of_uint_acc];
    change (py (String ?a ?rest)) with (N_of_ascii a :: py rest);
    cbn [digits_value]; rewrite ascii_digits by (vm_compute; split; discriminate);
    rewrite <- IHd; f_equal; cbn [N_of_ascii N_of_digits]; lia.
Qed.

Lemma digits_value_uint (d : Decimal.uint) :
  digits_value 0 (py (NilEmpty.string_of_uint d)) = Some (Z.of_N (Pos.of_uint d)).
Proof.
  induction d; [cbn; reflexivity|..];
    cbn [NilEmpty.string_of_uint Pos.of_uint];
    change (py (String ?a ?rest)) with (N_of_ascii a :: py rest);
    cbn [digits_value]; rewrite ascii_digits by (vm_compute; split; discriminate);
    [exact IHd|..]; cbn [Z.of_N]; rewrite <- digits_value_uint_acc; f_equal.
Qed.

Lemma string_of_uint_digits (d : Decimal.uint) :
  Forall (fun c : N => (48 <= c <= 57)%N) (py (NilEmpty.string_of_uint d)).
Proof.
  induction d; [constructor|..]; cbn [NilEmpty.string_of_uint];
    change (py (String ?a ?rest)) with (N_of_ascii a :: py rest);
    (constructor; [vm_compute; split; discriminate | exact IHd]).
Qed.

Lemma isdigit_ascii_digits (s : list N) :
  s <> [] -> Forall (fun c : N => (48 <= c <= 57)%N) s -> isdigit s = true.
Proof.
  intros Hne Hall. destruct s as [|c s]; [congruence|]. cbn [isdigit].
  apply forallb_forall. intros x Hx. rewrite List.Forall_forall in Hall.
  unfold isdigit_char. rewrite (ascii_digits x (Hall x Hx)). reflexivity.
Qed.

Lemma str_of_pos_int (p : positive) :
  py (NilZero.string_of_uint (Pos.to_uint p)) <> [] /\
  Forall (fun c : N => (48 <= c <= 57)%N)
    (py (NilZero.string_of_uint (Pos.to_uint p))) /\
  isdigit (py (NilZero.string_of_uint (Pos.to_uint p))) = true /\
  digits_value 0 (py (NilZero.string_of_uint (Pos.to_uint p))) = Some (Z.pos p).
Proof.
  pose proof (DecimalPos.Unsigned.to_uint_nonnil p) as Hn.
  assert (E : NilZero.string_of_uint (Pos.to_uint p)
              = NilEmpty.string_of_uint (Pos.to_uint p))
    by (destruct (Pos.to_uint p); [congruence|..]; reflexivity).
  rewrite E. clear E.
  assert (Hne : py (NilEmpty.string_of_uint (Pos.to_uint p)) <> []).
  { destruct (Pos.to_uint p); [congruence|..]; discriminate. }
  split; [exact Hne|]. split; [apply string_of_uint_digits|]. split.
  - apply isdigit_ascii_digits; [exact Hne | apply string_of_uint_digits].
  - rewrite digits_value_uint, DecimalPos.Unsigned.of_to. reflexivity.
Qed.

Lemma str_of_int_numeric z : numeric_looking (str_of_int z) = true.
Proof.
  unfold numeric_looking.
  destruct z as [|p|p]; unfold str_of_int; cbn [Z.to_int NilZero.string_of_int].
  - change (py (NilZero.string_of_uint Decimal.zero)) with [48%N].
    cbn [isdigit forallb]. unfold isdigit_char.
    rewrite ascii_digits by (split; discriminate). reflexivity.
  - destruct (str_of_pos_int p) as (_ & _ & -> & _). reflexivity.
  - destruct (str_of_pos_int p) as (_ & _ & Hd & _).
    change (py (String "-" ?rest)) with (45%N :: py rest).
    cbn [startswith_minus tail_from_1 tl N.eqb Pos.eqb]. rewrite Hd.
    apply orb_true_r.
Qed.

(** [int] on the decimal numeral of an integer: the integer, unless the
    numeral has more digits than the limit. *)
Lemma int_of_str_of_int z :
  int_of_str (str_of_int z)
  = if within_limit (str_of_int (Z.abs z)) then Some z else None.
Proof.
  destruct z as [|p|p];
    [change (str_of_int (Z.abs 0)) with [48%N]
    |change (str_of_int (Z.abs (Z.pos p)))
       with (py (NilZero.string_of_uint (Pos.to_uint p)))
    |change (str_of_int (Z.abs (Z.neg p)))
       with (py (NilZero.string_of_uint (Pos.to_uint p)))];
    unfold str_of_int; cbn [Z.to_int NilZero.string_of_int].
  - change (py (NilZero.string_of_uint Decimal.zero)) with [48%N].
    cbn [int_of_str N.eqb Pos.eqb digits_value].
    rewrite ascii_digits by (split; discriminate). reflexivity.
  - destruct (str_of_pos_int p) as (Hne & Hall & _ & Hv).
    destruct (py (NilZero.string_of_uint (Pos.to_uint p))) as [|c rest] eqn:E;
      [congruence|].
    cbn [int_of_str]. apply Forall_cons in Hall as [Hc _].
    destruct (N.eqb_spec c 45) as [->|_]; [lia|]. rewrite Hv. reflexivity.
  - destruct (str_of_pos_int p) as (Hne & _ & _ & Hv).
    change (py (String "-" ?rest)) with (45%N :: py rest).
    cbn [int_of_str N.eqb Pos.eqb].
    destruct (py (NilZero.string_of_uint (Pos.to_uint p))); [congruence|].
    rewrite Hv. reflexivity.
Qed.

End Decimal.

(** X9: granted that the ASCII digits are decimal digits with their usual
    values, normalising the decimal numeral of an integer gives the integer
    back when the numeral has no more digits than the interpreter's limit
    for [int], and raises [ValueError] when it has more. *)
Theorem normalize_id_of_decimal_numeral `{Unicode} (z : Z) :
  (forall c : N, (48 <= c <= 57)%N -> decimal_value c = Some (Z.of_N c - 48)) ->
  normalize_id (RStr (str_of_int z))
  = if within_limit (str_of_int (Z.abs z)) then Ok (RInt z) else Raise ValueError.
Proof.
  intros Hascii. cbn [normalize_id py_int].
  rewrite (str_of_int_numeric Hascii z), (int_of_str_of_int Hascii z).
  destruct (within_limit (str_of_int (Z.abs z))); reflexivity.
Qed.

Lemma normalize_id_of_decimal_numeral_witness :
  @normalize_id excerpt (RStr (str_of_int (-1001234567890)))
  = Ok (RInt (-1001234567890)).
Proof.
  rewrite (@normalize_id_of_decimal_numeral excerpt (-1001234567890)).
  - reflexivity.
  - intros c [Hlo Hhi]. cbn. unfold excerpt_decimal.
    apply N.leb_le in Hlo, Hhi. rewrite Hlo, Hhi. reflexivity.
Defined.

End NormalizerMore.

(** ** More on the mapping resolver *)

Module ResolverMore.
Import NormalizerFacts ResolverFacts.

Section WithClient.
Context `{Unicode} {Client : Type} `{Messaging Client}.

Lemma resolve_destination_completes (c : Client) (d : raw) :
  (forall e, normalize_id d <> Raise e) ->
  exists r c', resolve_destination c d = (Ok r, c').
Proof.
  intros Hd. unfold resolve_destination.
  destruct (normalize_id d) as [d_norm|e]; [|destruct (Hd e); reflexivity].
  destruct (symbolic d_norm) as [name|].
  - destruct (get_entity c name) as [[id| |] c1]; eauto.
  - destruct (py_int d_norm); eauto.
Qed.

Lemma resolve_destinations_complete (raw_dests : list raw) :
  (forall d, In d raw_dests -> forall e, normalize_id d <> Raise e) ->
  forall (c : Client) acc,
    exists dest_ids c', resolve_destinations c raw_dests acc = (Ok dest_ids, c').
Proof.
  induction raw_dests as [|d rest IH]; intros Hall c acc; cbn [resolve_destinations].
  - eauto.
  - destruct (resolve_destination_completes c d) as (r & c1 & ->);
      [apply Hall; left; reflexivity|].
    assert (Hrest : forall d', In d' rest -> forall e, normalize_id d' <> Raise e)
      by (intros d' Hd'; apply Hall; right; exact Hd').
    destruct r as [id|]; apply IH; exact Hrest.
Qed.

Lemma resolve_source_is_int (c c1 : Client) (raw_src src_id : raw) :
  (forall e, normalize_id raw_src <> Raise e) ->
  resolve_source c raw_src = (Some src_id, c1) ->
  exists z, src_id = RInt z.
Proof.
  intros Hs. unfold resolve_source.
  destruct (normalize_id raw_src) as [v|e] eqn:E; [|destruct (Hs e); reflexivity].
  apply normalize_id_returns in E as [[z ->]|(s & _ & -> & Hn)].
  - cbn. intros [= <- <-]. eauto.
  - cbn [symbolic]. rewrite Hn. cbn [negb].
    destruct (get_entity c s) as [[id| |] c']; intros [= <- <-]. eauto.
Qed.

Lemma resolve_loop_completes (items : list (raw * list raw)) :
  (forall raw_src raw_dests, In (raw_src, raw_dests) items ->
     (forall e, normalize_id raw_src <> Raise e) /\
     forall d, In d raw_dests -> forall e, normalize_id d <> Raise e) ->
  forall (c : Client) resolved,
    exists table c', resolve_loop c items resolved = (Ok table, c').
Proof.
  induction items as [|[raw_src raw_dests] rest IH]; intros Hall c resolved;
    cbn [resolve_loop]; [eauto|].
  assert (Hrest : forall s ds, In (s, ds) rest ->
            (forall e, normalize_id s <> Raise e) /\
            forall d, In d ds -> forall e, normalize_id d <> Raise e)
    by (intros s ds Hin; apply Hall; right; exact Hin).
  destruct (Hall raw_src raw_dests) as [Hsrc Hdests]; [left; reflexivity|].
  destruct (resolve_source c raw_src) as [[src_id|] c1] eqn:Es; [|apply IH, Hrest].
  apply resolve_source_is_int in Es as [z ->]; [|exact Hsrc].
  destruct (resolve_destinations_complete raw_dests Hdests c1 [])
    as (dest_ids & c2 & ->).
  destruct dest_ids; cbn [py_int]; apply IH, Hrest.
Qed.

(** *** Configurations made of literal identifiers *)

Lemma literal_source (c : Client) (raw_src : raw) k :
  literal raw_src = Some k -> resolve_source c raw_src = (Some (RInt k), c).
Proof.
  unfold literal, resolve_source.
  destruct (normalize_id raw_src) as [[z|s]|e]; intros [= <-]. reflexivity.
Qed.

Lemma literal_destinations (raw_dests : list raw) :
  Forall (fun d => is_Some (literal d)) raw_dests ->
  forall (c : Client) acc,
    resolve_destinations c raw_dests acc = (Ok (acc ++ omap literal raw_dests), c).
Proof.
  induction 1 as [|d rest [z Hd] _ IH]; intros c acc; cbn [resolve_destinations].
  - rewrite app_nil_r. reflexivity.
  - cbn [omap list_omap]. rewrite Hd. unfold resolve_destination.
    unfold literal in Hd. destruct (normalize_id d) as [[z'|s]|e]; try discriminate.
    injection Hd as ->. cbn [symbolic py_int]. rewrite IH, <- app_assoc.
    reflexivity.
Qed.

Lemma literal_loop (items : list (raw * list raw)) :
  Forall (fun item : raw * list raw =>
            is_Some (literal item.1)
            /\ Forall (fun d => is_Some (literal d)) item.2) items ->
  forall (c : Client) resolved,
    resolve_loop c items resolved
    = (Ok (fold_left store_literal items resolved), c).
Proof.
  induction 1 as [|[raw_src raw_dests] rest [[k Hk] Hds] _ IH]; intros c resolved;
    [reflexivity|].
  cbn [resolve_loop fold_left fst snd] in *.
  rewrite (literal_source c raw_src k Hk), (literal_destinations raw_dests Hds).
  cbn [app]. unfold store_literal at 2. cbn [fst snd]. rewrite Hk.
  destruct (omap literal raw_dests); cbn [py_int]; apply IH.
Qed.

End WithClient.

(** What the table built from literal items holds under a key: the ids of
    the last item for that key that has any. *)
Lemma fold_store_literal_lookup `{Unicode} (items : list (raw * list raw)) k ids :
  fold_left store_literal items ∅ !! k = Some ids <->
  exists pre raw_src raw_dests post,
    items = pre ++ (raw_src, raw_dests) :: post /\
    literal raw_src = Some k /\ omap literal raw_dests = ids /\ ids <> [] /\
    Forall (fun item : raw * list raw =>
              literal item.1 = Some k -> omap literal item.2 = []) post.
Proof.
  induction items as [|[s ds] l IH] using rev_ind.
  - cbn. rewrite lookup_empty. split; [discriminate|].
    intros (pre & s & ds & post & E & _). destruct pre; discriminate.
  - rewrite fold_left_app. cbn [fold_left].
    assert (Hlast : forall pre s0 ds0 post,
              l ++ [(s, ds)] = pre ++ (s0, ds0) :: post ->
              (post = [] /\ pre = l /\ s0 = s /\ ds0 = ds) \/
              (exists post', post = post' ++ [(s, ds)]
                             /\ l = pre ++ (s0, ds0) :: post')).
    { intros pre s0 ds0 post E.
      destruct post as [|y post _] using rev_ind.
      - left. apply (app_inj_tail l pre) in E as [-> [= -> ->]]. auto.
      - right. change (pre ++ (s0, ds0) :: post ++ [y])
          with (pre ++ ((s0, ds0) :: post) ++ [y]) in E.
        rewrite app_assoc in E. apply app_inj_tail in E as [-> ->]. eauto. }
    assert (Hold : (exists pre s0 ds0 post,
                      l = pre ++ (s0, ds0) :: post /\
                      literal s0 = Some k /\ omap literal ds0 = ids /\ ids <> [] /\
                      Forall (fun item : raw * list raw =>
                                literal item.1 = Some k -> omap literal item.2 = [])
                        post) ->
                   (literal s = Some k -> omap literal ds = []) ->
                   exists pre s0 ds0 post,
                     l ++ [(s, ds)] = pre ++ (s0, ds0) :: post /\
                     literal s0 = Some k /\ omap literal ds0 = ids /\ ids <> [] /\
                     Forall (fun item : raw * list raw =>
                               literal item.1 = Some k -> omap literal item.2 = [])
                       post).
    { intros (pre & s0 & ds0 & post & -> & Hk & Hi & Hne & Hpost) Hskip.
      exists pre, s0, ds0, (post ++ [(s, ds)]). rewrite <- app_assoc.
      repeat split; try assumption. apply Forall_app. split; [exact Hpost|].
      constructor; [exact Hskip | constructor]. }
    unfold store_literal at 1. cbn [fst snd].
    destruct (literal s) as [k'|] eqn:Ek;
      [destruct (omap literal ds) as [|id ids'] eqn:Ed|].
    + rewrite IH. split; [intros Ho; apply Hold; auto|].
      intros (pre & s0 & ds0 & post & E & Hk & Hi & Hne & Hpost).
      apply Hlast in E as [(-> & -> & -> & ->)|(post' & -> & ->)].
      * congruence.
      * apply Forall_app in Hpost as [Hpost _]. exists pre, s0, ds0, post'. auto.
    + destruct (decide (k' = k)) as [->|Hne].
      * rewrite lookup_insert_eq. split.
        { intros [= <-]. exists l, s, ds, []. repeat split; auto. }
        intros (pre & s0 & ds0 & post & E & Hk & Hi & Hne & Hpost).
        apply Hlast in E as [(-> & -> & -> & ->)|(post' & -> & ->)];
          [congruence|].
        apply Forall_app in Hpost as [_ Hpost].
        apply Forall_cons in Hpost as [Hpost _]. cbn [fst snd] in Hpost.
        rewrite Ed in Hpost. specialize (Hpost Ek). discriminate.
      * rewrite lookup_insert_ne by exact Hne. rewrite IH.
        split; [intros Ho; apply Hold; [exact Ho | congruence]|].
        intros (pre & s0 & ds0 & post & E & Hk & Hi & Hne' & Hpost).
        apply Hlast in E as [(-> & -> & -> & ->)|(post' & -> & ->)];
          [congruence|].
        apply Forall_app in Hpost as [Hpost _]. exists pre, s0, ds0, post'. auto.
    + rewrite IH. split; [intros Ho; apply Hold; [exact Ho | congruence]|].
      intros (pre & s0 & ds0 & post & E & Hk & Hi & Hne & Hpost).
      apply Hlast in E as [(-> & -> & -> & ->)|(post' & -> & ->)];
        [congruence|].
      apply Forall_app in Hpost as [Hpost _]. exists pre, s0, ds0, post'. auto.
Qed.

(** X10: whatever the client answers, the resolver returns a table, and does
    not raise, when [normalize_id] raises on none of the identifiers of the
    configuration. *)
Theorem resolver_completes `{Unicode} {Client : Type} `{Messaging Client}
    (c : Client) (raw_mappings : list (raw * list raw)) :
  (forall raw_src raw_dests, In (raw_src, raw_dests) raw_mappings ->
     (forall e, normalize_id raw_src <> Raise e) /\
     forall d, In d raw_dests -> forall e, normalize_id d <> Raise e) ->
  exists table c', _resolve_mappings c raw_mappings = (Ok table, c').
Proof.
  intros Hall. unfold _resolve_mappings.
  destruct (resolve_loop_completes raw_mappings Hall c ∅) as (table & c' & E).
  exists table, c'. exact E.
Qed.

Lemma resolver_completes_witness :
  exists table c',
    @_resolve_mappings excerpt script scripted (Script [TimeoutError; Found 9] [])
      [(RStr (py "@a"), [RInt 1]); (RStr (py "77"), [RStr (py "@b"); RInt 2])]
    = (Ok table, c').
Proof.
  apply (@resolver_completes excerpt script scripted).
  intros raw_src raw_dests [[= <- <-]|[[= <- <-]|[]]]; split;
    try (intros e; vm_compute; discriminate).
  - intros d [<-|[]] e. vm_compute. discriminate.
  - intros d [<-|[<-|[]]] e; vm_compute; discriminate.
Defined.

(** X11: for a configuration all of whose identifiers are integers or
    numerals that [int] accepts (decimal digits, no more of them than the
    interpreter's limit), the resolver asks the client nothing and returns a table
    which holds, under every source id, the destination ids of the last item
    declared for that id that has destinations: a later item replaces an
    earlier one as a whole. *)
Theorem literal_configuration_last_wins `{Unicode} {Client : Type}
    `{Messaging Client} (c : Client) (raw_mappings : list (raw * list raw)) :
  Forall (fun item : raw * list raw =>
            is_Some (literal item.1)
            /\ Forall (fun d => is_Some (literal d)) item.2) raw_mappings ->
  exists table,
    _resolve_mappings c raw_mappings = (Ok table, c) /\
    forall k ids,
      table !! k = Some ids <->
      exists pre raw_src raw_dests post,
        raw_mappings = pre ++ (raw_src, raw_dests) :: post /\
        literal raw_src = Some k /\ omap literal raw_dests = ids /\ ids <> [] /\
        Forall (fun item : raw * list raw =>
                  literal item.1 = Some k -> omap literal item.2 = []) post.
Proof.
  intros Hall. exists (fold_left store_literal raw_mappings ∅). split.
  - apply literal_loop, Hall.
  - intros k ids. apply fold_store_literal_lookup.
Qed.

(** The string [5] and the integer 5 name the same source: the second item
    replaces the first. *)
Lemma literal_configuration_last_wins_witness :
  exists table,
    @_resolve_mappings excerpt script scripted (Script [] [])
      [(RStr (py "5"), [RInt 1]); (RInt 5, [RInt 2; RStr (py "-3")])]
    = (Ok table, Script [] []) /\
    forall k ids,
      table !! k = Some ids <->
      exists pre raw_src raw_dests post,
        [(RStr (py "5"), [RInt 1]); (RInt 5, [RInt 2; RStr (py "-3")])]
        = pre ++ (raw_src, raw_dests) :: post /\
        @literal excerpt raw_src = Some k /\
        omap (@literal excerpt) raw_dests = ids /\ ids <> [] /\
        Forall (fun item : raw * list raw =>
                  @literal excerpt item.1 = Some k
                  -> omap (@literal excerpt) item.2 = []) post.
Proof.
  apply (@literal_configuration_last_wins excerpt script scripted).
  repeat constructor; vm_compute; eauto.
Defined.

End ResolverMore.

(** ** More on the delivery engine *)

Module DeliveryMore.
Import ResolverFacts DeliveryFacts.

Section WithClient.
Context `{Unicode} {Client : Type} `{Messaging Client}.
Implicit Types (bot : MirrorBot) (c : Client) (msg : message).

(** One round of the loop: at most one call that raised, then one more call
    to the same destination, and what follows it. *)
Lemma deliver_to_shape bot c src_id dest msg text :
  exists failed r o,
    (deliver_to bot c src_id dest msg text).1
    = failed ++ Call r o :: epilogue bot src_id dest o /\
    request_dest r = dest /\
    (failed = [] /\ r = primary_request dest msg text \/
     exists e, failed = [Call (primary_request dest msg text) (Raised e)]
               /\ media msg = None /\ truthy (entities msg) = true
               /\ r = send_message dest text None).
Proof.
  assert (Hone : forall c0 r,
            r = primary_request dest msg text -> request_dest r = dest ->
            exists failed r' o,
              (let '(o, t, c1) := send_then_log bot c0 src_id dest r in
               (t ++ handler dest o, c1)).1
              = failed ++ Call r' o :: epilogue bot src_id dest o /\
              request_dest r' = dest /\
              (failed = [] /\ r' = primary_request dest msg text \/
               exists e, failed = [Call (primary_request dest msg text) (Raised e)]
                         /\ media msg = None /\ truthy (entities msg) = true
                         /\ r' = send_message dest text None)).
  { intros c0 r Hr Hd. unfold send_then_log.
    destruct (call c0 r) as [[|e] c1]; cbn [fst].
    - exists [], r, Returned. cbn [app handler epilogue]. rewrite app_nil_r. auto.
    - exists [], r, (Raised e). cbn [app epilogue]. auto. }
  unfold deliver_to, try_send. unfold primary_request in *.
  destruct (media msg) as [m|] eqn:Em; [apply Hone; reflexivity|].
  destruct (truthy (entities msg)) eqn:Et; [|apply Hone; reflexivity].
  set (markup := send_message dest _ (Some (py "html"))) in *.
  destruct (call c markup) as [[|e] c1].
  - cbn [fst]. exists [], markup, Returned.
    cbn [app handler epilogue]. rewrite app_nil_r. auto.
  - unfold send_then_log.
    destruct (call c1 (send_message dest text None)) as [[|e2] c2]; cbn [fst].
    + exists [Call markup (Raised e)], (send_message dest text None), Returned.
      cbn [app handler epilogue]. rewrite app_nil_r.
      split; [reflexivity|]. split; [reflexivity|]. right. exists e. auto.
    + exists [Call markup (Raised e)], (send_message dest text None), (Raised e2).
      cbn [app epilogue].
      split; [reflexivity|]. split; [reflexivity|]. right. exists e. auto.
Qed.

Lemma requests_epilogue bot src_id dest o :
  requests (epilogue bot src_id dest o) = [].
Proof.
  destruct o; [apply requests_after_send | apply requests_handler].
Qed.

Lemma deliver_cons bot c src_id dest rest msg text :
  (deliver bot c src_id (dest :: rest) msg text).1
  = (deliver_to bot c src_id dest msg text).1
    ++ (deliver bot (deliver_to bot c src_id dest msg text).2 src_id rest msg text).1.
Proof.
  cbn [deliver]. destruct (deliver_to bot c src_id dest msg text) as [t1 c1].
  cbn [fst snd]. destruct (deliver bot c1 src_id rest msg text). reflexivity.
Qed.

(** Whatever [_on_message] does, its trace is empty, or one of two log
    lines, or the trace of the loop over the destinations of the chat. *)
Lemma on_message_trace bot c event :
  let t := (_on_message bot c event).1 in
  t = [] \/ t = [Log SkippingNoKeyword] \/
  t = [Log (NoDestinationConfigured (chat_id event))] \/
  t = (deliver bot c (chat_id event)
         (default [] (mappings bot !! chat_id event))
         (event_message event) (body (event_message event))).1.
Proof.
  unfold _on_message. destruct (bool_decide _); [auto|].
  destruct (_ && bool_decide _); [auto|].
  destruct (_ && negb _); [auto|]. unfold dispatch, body.
  destruct (default [] (mappings bot !! chat_id event)); auto.
Qed.

Lemma primary_request_dest dest msg text :
  request_dest (primary_request dest msg text) = dest.
Proof.
  unfold primary_request. destruct (media msg); [reflexivity|].
  destruct (truthy (entities msg)); reflexivity.
Qed.

(** The requests of one round: the primary request, and after it the plain
    text when there was a failed markup send. *)
Lemma deliver_to_requests bot c src_id dest msg text :
  requests (deliver_to bot c src_id dest msg text).1
  = [primary_request dest msg text] \/
  (media msg = None /\ truthy (entities msg) = true /\
   requests (deliver_to bot c src_id dest msg text).1
   = [primary_request dest msg text; send_message dest text None]).
Proof.
  destruct (deliver_to_shape bot c src_id dest msg text)
    as (failed & r & o & -> & _ & [[-> ->]|(e & -> & Hm & He & ->)]);
    rewrite requests_app; cbn [requests app]; rewrite requests_epilogue; auto.
Qed.

Lemma in_epilogue_mirrored bot src_id dest o d :
  In (Log (Mirrored src_id d)) (epilogue bot src_id dest o) <->
  o = Returned /\ d = dest.
Proof.
  destruct o as [|e]; cbn [epilogue].
  - unfold after_send. split.
    + intros [[= ->]|Hin]; [auto|].
      destruct (pacing bot); [destruct Hin as [[=]|[]] | destruct Hin].
    + intros [_ ->]. left. reflexivity.
  - split; [|intros [[=] _]].
    destruct e as [|seconds| |]; cbn; intros Hin;
      repeat (destruct Hin as [[=]|Hin]); destruct Hin.
Qed.

Lemma in_epilogue_call bot src_id dest o r o' :
  ~ In (Call r o') (epilogue bot src_id dest o).
Proof.
  destruct o as [|e]; cbn [epilogue].
  - unfold after_send. intros [[=]|Hin].
    destruct (pacing bot); [destruct Hin as [[=]|[]] | destruct Hin].
  - destruct e as [|seconds| |]; cbn; intros Hin;
      repeat (destruct Hin as [[=]|Hin]); destruct Hin.
Qed.

Lemma in_epilogue_sleep bot src_id dest o t :
  In (Sleep t) (epilogue bot src_id dest o) ->
  (o = Returned /\ pacing bot = true /\ t = delay bot) \/
  (exists wait, In (Log (HitFloodWait dest wait)) (epilogue bot src_id dest o)
                /\ t = inject_Z (wait + 5)).
Proof.
  destruct o as [|e]; cbn [epilogue].
  - unfold after_send. intros [[=]|Hin].
    destruct (pacing bot); [|destruct Hin].
    destruct Hin as [[= <-]|[]]. auto.
  - destruct e as [|seconds| |]; cbn [handler]; intros Hin;
      repeat (destruct Hin as [[=]|Hin]); try destruct Hin.
    subst t. right. exists (default 60 seconds). split; [left|]; reflexivity.
Qed.

(** A property of traces that holds of every round holds of the loop, when
    it goes through concatenation. *)
Lemma deliver_rounds (P : list effect -> Prop) bot src_id msg text :
  P [] ->
  (forall t1 t2, P t1 -> P t2 -> P (t1 ++ t2)) ->
  (forall c dest, P (deliver_to bot c src_id dest msg text).1) ->
  forall dests c, P (deliver bot c src_id dests msg text).1.
Proof.
  intros Hnil Happ Hround dests.
  induction dests as [|dest rest IH]; intros c; [exact Hnil|].
  rewrite deliver_cons. apply Happ; [apply Hround | apply IH].
Qed.

End WithClient.

(** X12: a chat for which the resolver stored an entry is served: when the
    routing table of the bot comes from the resolver and holds the chat of
    the event, a message that passes the filter leads to a call, and the
    first call goes to the first destination of the chat. *)
Theorem chat_of_the_table_is_served `{Unicode} {Client : Type}
    `{Messaging Client} (c0 c1 c : Client) (raw_mappings : list (raw * list raw))
    (bot : MirrorBot) (event : new_message) (keyword_list : list (list N))
    (dests : list Z) :
  _resolve_mappings c0 raw_mappings = (Ok (mappings bot), c1) ->
  mappings bot !! chat_id event = Some dests ->
  keywords bot = List.map lower keyword_list ->
  accepts (event_message event) keyword_list = true ->
  exists r rest,
    requests (_on_message bot c event).1 = r :: rest /\
    head dests = Some (request_dest r).
Proof.
  intros Hres Hchat Hk Ha.
  destruct (resolve_loop_stored _ _ _ _ _ _ _ Hres Hchat) as [He|[Hne _]];
    [rewrite lookup_empty in He; discriminate|].
  pose proof (on_message_filter bot c event keyword_list Hk) as Hf.
  cbv zeta in Hf. rewrite Ha in Hf. rewrite Hf. unfold dispatch.
  rewrite Hchat. cbn [default from_option id].
  destruct dests as [|d ds]; [congruence|]. rewrite deliver_cons, requests_app.
  destruct (deliver_to_requests bot c (chat_id event) d (event_message event)
              (body (event_message event))) as [-> |(_ & _ & ->)];
    eexists _, _; (split; [reflexivity|]); cbn [head];
    rewrite primary_request_dest; reflexivity.
Qed.

(** The scenario of the specification, then a message of chat 555. *)
Lemma chat_of_the_table_is_served_witness :
  exists r rest,
    requests
      (@_on_message excerpt script scripted
         (Bot (<[555 := [-100123]]> ∅) (Qmake 2 1) []) (Script [] [])
         (NewMessage 555 (Message None (Some (py "hi")) None None))).1
    = r :: rest /\
    head [-100123] = Some (request_dest r).
Proof.
  apply (@chat_of_the_table_is_served excerpt script scripted
           (Script [Found 555; Failed] []) (Script [] []) (Script [] [])
           [(RStr (py "@channelA"), [RStr (py "-100123"); RStr (py "@channelB")])]
           (Bot (<[555 := [-100123]]> ∅) (Qmake 2 1) [])
           (NewMessage 555 (Message None (Some (py "hi")) None None)) []
           [-100123]); vm_compute; reflexivity.
Defined.

(** X13: every call [_on_message] makes is addressed to one of the
    destinations the routing table holds for the chat of the event. *)
Theorem sends_only_to_mapped_destinations `{Unicode} {Client : Type}
    `{Messaging Client} (bot : MirrorBot) (c : Client) (event : new_message) :
  Forall (fun r => In (request_dest r) (default [] (mappings bot !! chat_id event)))
    (requests (_on_message bot c event).1).
Proof.
  destruct (on_message_trace bot c event) as [-> |[-> |[-> | ->]]];
    try (cbn; constructor).
  generalize (default [] (mappings bot !! chat_id event)). intros dests. revert c.
  induction dests as [|d ds IH]; intros c; [constructor|].
  rewrite deliver_cons, requests_app. apply Forall_app. split.
  - destruct (deliver_to_requests bot c (chat_id event) d (event_message event)
                (body (event_message event))) as [-> |(_ & _ & ->)];
      repeat constructor; rewrite ?primary_request_dest; reflexivity.
  - eapply Forall_impl; [apply IH|]. cbn beta. intros r Hr. right. exact Hr.
Qed.

(** X14: the loop makes at least one call and at most two calls per
    destination. *)
Theorem one_or_two_calls_per_destination `{Unicode} {Client : Type}
    `{Messaging Client} (bot : MirrorBot) (c : Client) (src_id : Z)
    (dests : list Z) (msg : message) (text : list N) :
  (length dests <= length (requests (deliver bot c src_id dests msg text).1)
   <= 2 * length dests)%nat.
Proof.
  revert c. induction dests as [|d ds IH]; intros c; [cbn; lia|].
  rewrite deliver_cons, requests_app, length_app. cbn [length].
  specialize (IH (deliver_to bot c src_id d msg text).2).
  destruct (deliver_to_requests bot c src_id d msg text) as [-> |(_ & _ & ->)];
    cbn [length]; lia.
Qed.

(** X15: a destination is logged as mirrored exactly when a call addressed
    to it returned. *)
Theorem mirrored_iff_a_send_returned `{Unicode} {Client : Type}
    `{Messaging Client} (bot : MirrorBot) (c : Client) (event : new_message)
    (d : Z) :
  In (Log (Mirrored (chat_id event) d)) (_on_message bot c event).1 <->
  exists r, In (Call r Returned) (_on_message bot c event).1 /\ request_dest r = d.
Proof.
  destruct (on_message_trace bot c event) as [-> |[-> |[-> | ->]]].
  - split; [intros [] | intros (r & [] & _)].
  - split; [intros [[=]|[]] | intros (r & [[=]|[]] & _)].
  - split; [intros [[=]|[]] | intros (r & [[=]|[]] & _)].
  - revert c. generalize (default [] (mappings bot !! chat_id event)).
    intros dests c.
    apply (deliver_rounds
             (fun t => In (Log (Mirrored (chat_id event) d)) t <->
                       exists r, In (Call r Returned) t /\ request_dest r = d)).
    + split; [intros [] | intros (r & [] & _)].
    + intros t1 t2 H1 H2. rewrite in_app_iff, H1, H2. split.
      * intros [(r & Hr & Hd)|(r & Hr & Hd)]; exists r; rewrite in_app_iff; auto.
      * intros (r & Hr & Hd). apply in_app_iff in Hr as [Hr|Hr]; eauto.
    + intros c' dest.
      destruct (deliver_to_shape bot c' (chat_id event) dest (event_message event)
                  (body (event_message event)))
        as (failed & r & o & -> & Hdest & Hfailed).
      assert (Hf : forall x, In x failed -> exists r' e, x = Call r' (Raised e)).
      { destruct Hfailed as [[-> _]|(e & -> & _)]; [intros x []|].
        intros x [<-|[]]. eauto. }
      split.
      * intros Hin. apply in_app_iff in Hin as [Hin|[[=]|Hin]].
        { apply Hf in Hin as (r' & e & [=]). }
        apply in_epilogue_mirrored in Hin as [-> ->].
        exists r. split; [|exact Hdest]. apply in_app_iff. right. left. reflexivity.
      * intros (r' & Hin & Hd). apply in_app_iff in Hin as [Hin|[[= -> ->]|Hin]].
        { apply Hf in Hin as (r0 & e & [=]). }
        { apply in_app_iff. right. right. apply in_epilogue_mirrored.
          split; [reflexivity | congruence]. }
        { destruct (in_epilogue_call _ _ _ _ _ _ Hin). }
Qed.

(** X16: the handler sleeps for two reasons only: the pacing delay, when it
    is positive, after a send that was logged as mirrored, and the seconds
    of a flood wait plus five, after the flood wait was logged. *)
Theorem sleeps_are_pacing_or_flood_wait `{Unicode} {Client : Type}
    `{Messaging Client} (bot : MirrorBot) (c : Client) (event : new_message)
    (t : Q) :
  In (Sleep t) (_on_message bot c event).1 ->
  (pacing bot = true /\ t = delay bot /\
   exists d, In (Log (Mirrored (chat_id event) d)) (_on_message bot c event).1) \/
  (exists dest wait,
     In (Log (HitFloodWait dest wait)) (_on_message bot c event).1 /\
     t = inject_Z (wait + 5)).
Proof.
  destruct (on_message_trace bot c event) as [-> |[-> |[-> | ->]]];
    try (intros Hin; repeat (destruct Hin as [[=]|Hin]); destruct Hin).
  revert c. generalize (default [] (mappings bot !! chat_id event)).
  intros dests c.
  apply (deliver_rounds
           (fun tr => In (Sleep t) tr ->
              (pacing bot = true /\ t = delay bot /\
               exists d, In (Log (Mirrored (chat_id event) d)) tr) \/
              (exists dest wait,
                 In (Log (HitFloodWait dest wait)) tr /\ t = inject_Z (wait + 5)))).
  - intros [].
  - intros t1 t2 H1 H2 Hin. apply in_app_iff in Hin as [Hin|Hin];
      [destruct (H1 Hin) as [(Hp & Ht & d & Hd)|(dest & w & Hw & Ht)]
      |destruct (H2 Hin) as [(Hp & Ht & d & Hd)|(dest & w & Hw & Ht)]];
      [left|right|left|right]; repeat split; try assumption;
      try (exists d; apply in_app_iff; auto);
      exists dest, w; (split; [apply in_app_iff; auto | exact Ht]).
  - intros c' dest.
    destruct (deliver_to_shape bot c' (chat_id event) dest (event_message event)
                (body (event_message event)))
      as (failed & r & o & -> & Hdest & Hfailed).
    intros Hin. apply in_app_iff in Hin as [Hin|[[=]|Hin]].
    { destruct Hfailed as [[-> _]|(e & -> & _)]; [destruct Hin|].
      destruct Hin as [[=]|[]]. }
    apply in_epilogue_sleep in Hin as [(-> & Hp & Ht)|(w & Hw & Ht)].
    + left. repeat split; try assumption. exists dest.
      apply in_app_iff. right. right. apply in_epilogue_mirrored. auto.
    + right. exists dest, w. split; [|exact Ht].
      apply in_app_iff. right. right. exact Hw.
Qed.

Lemma sleeps_are_pacing_or_flood_wait_witness :
  (@pacing sample_bot = true /\ Qmake 35 1 = delay sample_bot /\
   exists d, In (Log (Mirrored 1 d))
               (@_on_message excerpt script scripted sample_bot
                  (Script [] [Raised (FloodWaitError (Some 30))])
                  (text_message (py "hi") None)).1) \/
  (exists dest wait,
     In (Log (HitFloodWait dest wait))
       (@_on_message excerpt script scripted sample_bot
          (Script [] [Raised (FloodWaitError (Some 30))])
          (text_message (py "hi") None)).1 /\
     Qmake 35 1 = inject_Z (wait + 5)).
Proof.
  apply (@sleeps_are_pacing_or_flood_wait excerpt script scripted sample_bot
           (Script [] [Raised (FloodWaitError (Some 30))])
           (text_message (py "hi") None) (Qmake 35 1)).
  vm_compute. right. right. left. reflexivity.
Defined.

(** X17: when no call of the client fails, the loop does, for each
    destination in turn, exactly this: the primary request, the log line,
    and the pacing sleep when the delay is positive. *)
Theorem trace_when_no_call_fails `{Unicode} {Client : Type} `{Messaging Client}
    (bot : MirrorBot) (c : Client) (src_id : Z) (dests : list Z)
    (msg : message) (text : list N) :
  (forall c0 r, (call c0 r).1 = Returned) ->
  (deliver bot c src_id dests msg text).1
  = flat_map (fun dest => Call (primary_request dest msg text) Returned
                          :: after_send bot src_id dest) dests.
Proof.
  intros Hok. revert c. induction dests as [|d ds IH]; intros c; [reflexivity|].
  rewrite deliver_cons, IH. cbn [flat_map]. f_equal.
  unfold deliver_to, try_send, primary_request, send_then_log.
  destruct (media msg) as [m|].
  - pose proof (Hok c (send_file d m (or_None (Some text)) (or_None (entities msg))))
      as Hc.
    destruct (call c _) as [o c1]. cbn [fst] in Hc. subst o. cbn [fst handler].
    rewrite app_nil_r. reflexivity.
  - destruct (truthy (entities msg)).
    + pose proof (Hok c (send_message d
                           (entities_to_html text (default [] (entities msg)))
                           (Some (py "html")))) as Hc.
      destruct (call c _) as [o c1]. cbn [fst] in Hc. subst o. cbn [fst handler].
      rewrite app_nil_r. reflexivity.
    + pose proof (Hok c (send_message d text None)) as Hc.
      destruct (call c _) as [o c1]. cbn [fst] in Hc. subst o. cbn [fst handler].
      rewrite app_nil_r. reflexivity.
Qed.

Lemma trace_when_no_call_fails_witness :
  (@deliver unit obliging sample_bot tt 1 [10; 20]
     (Message None (Some (py "Hello world")) None
        (Some [Entity MessageEntityBold 0 5]))
     (py "Hello world")).1
  = flat_map
      (fun dest =>
         Call (primary_request dest
                 (Message None (Some (py "Hello world")) None
                    (Some [Entity MessageEntityBold 0 5]))
                 (py "Hello world")) Returned
         :: @after_send sample_bot 1 dest) [10; 20].
Proof.
  apply (@trace_when_no_call_fails excerpt unit obliging sample_bot tt 1 [10; 20]).
  intros c0 r. reflexivity.
Defined.

(** X18: unless the message is text with annotations, the requests do not
    depend on what the client answers: one primary request per destination,
    in the order of the destinations. *)
Theorem requests_fixed_unless_annotated_text `{Unicode} {Client : Type}
    `{Messaging Client} (bot : MirrorBot) (c : Client) (src_id : Z)
    (dests : list Z) (msg : message) (text : list N) :
  media msg <> None \/ truthy (entities msg) = false ->
  requests (deliver bot c src_id dests msg text).1
  = List.map (fun dest => primary_request dest msg text) dests.
Proof.
  intros Hkind. revert c. induction dests as [|d ds IH]; intros c; [reflexivity|].
  rewrite deliver_cons, requests_app, IH. cbn [List.map].
  destruct (deliver_to_requests bot c src_id d msg text) as [-> |(Hm & He & _)];
    [reflexivity|].
  destruct Hkind; congruence.
Qed.

Lemma requests_fixed_unless_annotated_text_witness :
  requests
    (@deliver script scripted sample_bot
       (Script [] [Raised ChatWriteForbiddenError; Raised (FloodWaitError None)])
       1 [10; 20; 30] (Message None (Some (py "hi")) None None) (py "hi")).1
  = List.map
      (fun dest => primary_request dest (Message None (Some (py "hi")) None None)
                     (py "hi")) [10; 20; 30].
Proof.
  apply (@requests_fixed_unless_annotated_text excerpt script scripted).
  right. reflexivity.
Defined.

(** X19: an empty string among the keywords matches every text: with it the
    keyword rule rejects nothing. *)
Theorem empty_keyword_matches_everything `{Unicode} {Client : Type}
    `{Messaging Client} (bot : MirrorBot) (c : Client) (event : new_message)
    (keyword_list : list (list N)) :
  keywords bot = List.map lower keyword_list ->
  lower [] = [] ->
  In [] keyword_list ->
  action (event_message event) = None ->
  forallb is_whitespace (body (event_message event)) = false
  \/ media (event_message event) <> None ->
  _on_message bot c event = dispatch bot c event (body (event_message event)).
Proof.
  intros Hk Hl Hin Ha Hb.
  pose proof (on_message_filter bot c event keyword_list Hk) as Hf.
  cbv zeta in Hf.
  assert (Hacc : accepts (event_message event) keyword_list = true).
  { unfold accepts, is_service, has_media. rewrite Ha.
    assert (forallb is_whitespace (body (event_message event))
            && negb match media (event_message event) with
                    | Some _ => true
                    | None => false
                    end = false) as ->.
    { destruct Hb as [-> |Hm]; [reflexivity|].
      destruct (media (event_message event)); [apply andb_false_r | congruence]. }
    destruct keyword_list as [|k ks]; [reflexivity|].
    apply existsb_exists. exists []. split; [exact Hin|]. rewrite Hl.
    destruct (lower (body (event_message event))); reflexivity. }
  rewrite Hacc in Hf. exact Hf.
Qed.

Lemma empty_keyword_matches_everything_witness :
  @_on_message excerpt script scripted
    (@init excerpt (Qmake 2 1) [py "sale"; []]) (Script [] [])
    (text_message (py "no promo here") None)
  = @dispatch script scripted (@init excerpt (Qmake 2 1) [py "sale"; []])
      (Script [] []) (text_message (py "no promo here") None)
      (body (event_message (text_message (py "no promo here") None))).
Proof.
  apply (@empty_keyword_matches_everything excerpt script scripted
           (@init excerpt (Qmake 2 1) [py "sale"; []]) (Script [] [])
           (text_message (py "no promo here") None) [py "sale"; []]);
    try reflexivity.
  - right. left. reflexivity.
  - left. reflexivity.
Defined.

(** X20: with keywords configured, none of them empty, a message without
    text is rejected even when it carries media: nothing is sent. *)
Theorem textless_message_rejected_by_keywords `{Unicode} {Client : Type}
    `{Messaging Client} (bot : MirrorBot) (c : Client) (event : new_message)
    (keyword_list : list (list N)) :
  keywords bot = List.map lower keyword_list ->
  lower [] = [] ->
  keyword_list <> [] ->
  (forall k, In k keyword_list -> lower k <> []) ->
  body (event_message event) = [] ->
  (_on_message bot c event).2 = c /\
  requests (_on_message bot c event).1 = [].
Proof.
  intros Hk Hl Hne Hks Hb.
  pose proof (on_message_filter bot c event keyword_list Hk) as Hf.
  cbv zeta in Hf.
  assert (Hacc : accepts (event_message event) keyword_list = false).
  { unfold accepts. destruct (is_service _); [reflexivity|].
    destruct (_ && _); [reflexivity|].
    destruct keyword_list as [|k0 ks]; [congruence|].
    rewrite Hb, Hl. apply not_true_is_false. intros Hex.
    apply existsb_exists in Hex as (k & Hin & Hc).
    specialize (Hks k Hin). destruct (lower k); [congruence|discriminate]. }
  rewrite Hacc in Hf. exact Hf.
Qed.

Lemma textless_message_rejected_by_keywords_witness :
  (@_on_message excerpt script scripted
     (@init excerpt (Qmake 2 1) [py "sale"]) (Script [] [])
     (NewMessage 1 (Message None None (Some 7%N) None))).2 = Script [] [] /\
  requests
    (@_on_message excerpt script scripted
       (@init excerpt (Qmake 2 1) [py "sale"]) (Script [] [])
       (NewMessage 1 (Message None None (Some 7%N) None))).1 = [].
Proof.
  apply (@textless_message_rejected_by_keywords excerpt script scripted
           (@init excerpt (Qmake 2 1) [py "sale"]) (Script [] [])
           (NewMessage 1 (Message None None (Some 7%N) None)) [py "sale"]);
    try reflexivity.
  - discriminate.
  - intros k [<-|[]]. discriminate.
Defined.

End DeliveryMore.

(** ** The connection supervisor *)

Module SupervisorFacts.
Import ResolverFacts.

Section WithClient.
Context `{Unicode} {Client : Type} `{Messaging Client} `{Connection Client}.

Lemma in_recover x e : In x (recover e) -> exists s, x = Pause s.
Proof.
  destruct e as [|seconds| |]; cbn; intros [<-|[]]; eauto.
Qed.

Lemma in_listen_chats (table : gmap Z (list Z)) k :
  In k (listen_chats table) <-> exists dests, table !! k = Some dests.
Proof.
  unfold listen_chats. rewrite <- list_elem_of_In, list_elem_of_fmap. split.
  - intros ([k' dests] & -> & Hin). apply elem_of_map_to_list in Hin. eauto.
  - intros (dests & Hk). exists (k, dests). split; [reflexivity|].
    apply elem_of_map_to_list. exact Hk.
Qed.

(** What a round leaves as routing table: the table it was given, or a
    table the resolver returned in this round. *)
Lemma round_table bot c raw_mappings :
  let bot' := (round bot c raw_mappings).1.2 in
  delay bot' = delay bot /\ keywords bot' = keywords bot /\
  (mappings bot' = mappings bot \/
   exists c1 c2, _resolve_mappings c1 raw_mappings = (Ok (mappings bot'), c2)).
Proof.
  unfold round. destruct (client_start c) as [[|e] c1]; [|cbn; auto].
  destruct (_resolve_mappings c1 raw_mappings) as [[table|e] c2] eqn:E;
    [|cbn; auto].
  assert (Hres : exists c1 c2, _resolve_mappings c1 raw_mappings = (Ok table, c2))
    by eauto.
  destruct (listen_chats table); [cbn; auto|].
  destruct (run_until_disconnected _) as [[|e] c4]; cbn; auto.
Qed.

End WithClient.

(** X21: the handler is never registered for an empty list of chats, and
    the chats it is registered for are exactly the chats of the routing
    table just built, each of which has at least one destination. *)
Theorem listens_to_the_chats_of_the_table `{Unicode} {Client : Type}
    `{Messaging Client} `{Connection Client}
    (bot : MirrorBot) (c : Client) (raw_mappings : list (raw * list raw))
    (chats : list Z) :
  In (Listen chats) (round bot c raw_mappings).1.1 ->
  chats <> [] /\
  forall k, In k chats <->
    exists dests, mappings (round bot c raw_mappings).1.2 !! k = Some dests
                  /\ dests <> [].
Proof.
  unfold round. destruct (client_start c) as [[|e] c1].
  2:{ cbn. intros [[=]|Hin]. apply in_recover in Hin as [s [=]]. }
  destruct (_resolve_mappings c1 raw_mappings) as [[table|e] c2] eqn:E.
  2:{ cbn. intros [[=]|[[=]|Hin]]. apply in_recover in Hin as [s [=]]. }
  assert (Hchats : forall k, In k (listen_chats table) <->
            exists dests, table !! k = Some dests /\ dests <> []).
  { intros k. rewrite in_listen_chats. split.
    - intros (dests & Hk). exists dests. split; [exact Hk|].
      destruct (resolve_loop_stored _ _ _ _ _ _ _ E Hk) as [He|[Hne _]];
        [rewrite lookup_empty in He; discriminate | exact Hne].
    - intros (dests & Hk & _). eauto. }
  destruct (listen_chats table) as [|k0 ks] eqn:El.
  { cbn. intros [[=]|[[=]|[[=]|[]]]]. }
  destruct (run_until_disconnected _) as [[|e] c4]; cbn [fst snd].
  - intros [[=]|[[=]|[[= <-]|[[=]|[]]]]]. split; [discriminate | exact Hchats].
  - intros [[=]|[[=]|[[= <-]|[[=]|Hin]]]].
    + split; [discriminate | exact Hchats].
    + apply in_recover in Hin as [s [=]].
Qed.

Lemma listens_to_the_chats_of_the_table_witness :
  [555] <> [] /\
  forall k, In k [555] <->
    exists dests,
      mappings (@round excerpt script scripted flooding (@init excerpt (Qmake 2 1) [])
                  (Script [Found 555; Failed] [])
                  [(RStr (py "@channelA"),
                    [RStr (py "-100123"); RStr (py "@channelB")])]).1.2 !! k
      = Some dests /\ dests <> [].
Proof.
  apply (@listens_to_the_chats_of_the_table excerpt script scripted flooding
           (@init excerpt (Qmake 2 1) []) (Script [Found 555; Failed] [])
           [(RStr (py "@channelA"), [RStr (py "-100123"); RStr (py "@channelB")])]
           [555]).
  vm_compute. right. right. left. reflexivity.
Defined.

(** X22: the routing table in force after any number of rounds has no
    empty list of destinations, provided the table the loop began with had
    none; the delay and the keywords stay as they were. *)
Theorem table_in_force_has_no_empty_entry `{Unicode} {Client : Type}
    `{Messaging Client} `{Connection Client}
    (n : nat) (bot : MirrorBot) (c : Client)
    (raw_mappings : list (raw * list raw)) :
  (forall k dests, mappings bot !! k = Some dests -> dests <> []) ->
  let bot' := (start n bot c raw_mappings).1.2 in
  delay bot' = delay bot /\ keywords bot' = keywords bot /\
  forall k dests, mappings bot' !! k = Some dests -> dests <> [].
Proof.
  revert bot c. induction n as [|n IH]; intros bot c Hinv; [cbn; auto|].
  cbn [start].
  pose proof (round_table bot c raw_mappings) as (Hd & Hk & Ht). cbv zeta in *.
  destruct (round bot c raw_mappings) as [[t1 bot1] c1]. cbn [fst snd] in *.
  assert (Hinv1 : forall k dests, mappings bot1 !! k = Some dests -> dests <> []).
  { destruct Ht as [-> |(c0 & c2 & Hres)]; [exact Hinv|].
    intros k dests Hl.
    destruct (resolve_loop_stored _ _ _ _ _ _ _ Hres Hl) as [He|[Hne _]];
      [rewrite lookup_empty in He; discriminate | exact Hne]. }
  specialize (IH bot1 c1 Hinv1).
  destruct (start n bot1 c1 raw_mappings) as [[t2 bot2] c2]. cbn [fst snd] in *.
  destruct IH as (-> & -> & IH). auto.
Qed.

Lemma table_in_force_has_no_empty_entry_witness :
  delay (@start excerpt script scripted flooding 3 (@init excerpt (Qmake 2 1) [])
           (Script [Found 555; Failed] [])
           [(RStr (py "@channelA"),
             [RStr (py "-100123"); RStr (py "@channelB")])]).1.2
  = delay (@init excerpt (Qmake 2 1) []) /\
  keywords (@start excerpt script scripted flooding 3 (@init excerpt (Qmake 2 1) [])
              (Script [Found 555; Failed] [])
              [(RStr (py "@channelA"),
                [RStr (py "-100123"); RStr (py "@channelB")])]).1.2
  = keywords (@init excerpt (Qmake 2 1) []) /\
  forall k dests,
    mappings (@start excerpt script scripted flooding 3
                (@init excerpt (Qmake 2 1) [])
                (Script [Found 555; Failed] [])
                [(RStr (py "@channelA"),
                  [RStr (py "-100123"); RStr (py "@channelB")])]).1.2 !! k
    = Some dests -> dests <> [].
Proof.
  apply (@table_in_force_has_no_empty_entry excerpt script scripted flooding 3
           (@init excerpt (Qmake 2 1) []) (Script [Found 555; Failed] [])
           [(RStr (py "@channelA"), [RStr (py "-100123"); RStr (py "@channelB")])]).
  intros k dests Hl. cbn in Hl. rewrite lookup_empty in Hl. discriminate.
Defined.

(** X23: a round ends in one of three ways: [run_until_disconnected]
    returned, and the next round begins at once; or the round pauses five
    seconds (no chat resolved, or an exception other than a flood wait); or
    it pauses the seconds of a flood wait, 60 when it names none, plus
    five. *)
Theorem round_ends_with_run_or_pause `{Unicode} {Client : Type}
    `{Messaging Client} `{Connection Client}
    (bot : MirrorBot) (c : Client) (raw_mappings : list (raw * list raw)) :
  exists before_last,
    (round bot c raw_mappings).1.1 = before_last ++ [Run Returned] \/
    ((round bot c raw_mappings).1.1 = before_last ++ [Pause 5] /\
     ~ In (Run Returned) before_last) \/
    (exists seconds,
       (round bot c raw_mappings).1.1
       = before_last ++ [Pause (default 60 seconds + 5)] /\
       (In (Start (Raised (FloodWaitError seconds))) before_last \/
        In (Resolve (Raise (FloodWaitError seconds))) before_last \/
        In (Run (Raised (FloodWaitError seconds))) before_last)).
Proof.
  assert (Hrec : forall (pre : list supervision) x e,
            ~ In (Run Returned) (pre ++ [x]) ->
            (x = Start (Raised e) \/ x = Resolve (Raise e) \/ x = Run (Raised e)) ->
            exists before_last,
              pre ++ x :: recover e = before_last ++ [Run Returned] \/
              (pre ++ x :: recover e = before_last ++ [Pause 5] /\
               ~ In (Run Returned) before_last) \/
              (exists seconds,
                 pre ++ x :: recover e
                 = before_last ++ [Pause (default 60 seconds + 5)] /\
                 (In (Start (Raised (FloodWaitError seconds))) before_last \/
                  In (Resolve (Raise (FloodWaitError seconds))) before_last \/
                  In (Run (Raised (FloodWaitError seconds))) before_last))).
  { intros pre x e Hno Hx. exists (pre ++ [x]).
    replace (pre ++ x :: recover e) with ((pre ++ [x]) ++ recover e)
      by (rewrite <- app_assoc; reflexivity).
    destruct e as [|seconds| |]; cbn [recover]; auto.
    right. right. exists seconds. split; [reflexivity|].
    rewrite !in_app_iff. cbn [In].
    destruct Hx as [-> |[-> | ->]]; auto. }
  unfold round. destruct (client_start c) as [[|e] c1]; cbn [fst].
  2:{ apply (Hrec [] _ e); [|auto]. cbn. intros [[=]|[]]. }
  destruct (_resolve_mappings c1 raw_mappings) as [[table|e] c2]; cbn [fst].
  2:{ apply (Hrec [Start Returned] _ e); [|auto]. cbn. intros [[=]|[[=]|[]]]. }
  destruct (listen_chats table) as [|k ks]; cbn [fst].
  { exists [Start Returned; Resolve (Ok table)]. right. left.
    split; [reflexivity|]. cbn. intros [[=]|[[=]|[]]]. }
  destruct (run_until_disconnected _) as [[|e] c4]; cbn [fst].
  - exists [Start Returned; Resolve (Ok table); Listen (k :: ks)]. left. reflexivity.
  - apply (Hrec [Start Returned; Resolve (Ok table); Listen (k :: ks)] _ e); [|auto].
    cbn. intros [[=]|[[=]|[[=]|[[=]|[]]]]].
Qed.

End SupervisorFacts.
